(** * Verification of the [generic] package of porcupine

    A shallow embedding of [generic/model.go]: the typed facade over the
    linearizability checker.  The file models

    - Go's dynamic values ([interface{}] / [any]), boxing, type assertion
      [x.(T)] and interface comparison [==], including their run-time panics;
    - the typed and opaque history records and the converters between them;
    - [Model.ToModel], the type-erasure adapter;
    - [merge], [shallowEqual] and [NondeterministicModel.ToModel], the
      power-set construction.

    Go code that can panic is written in the monad [M], which also records
    every run of a caller-supplied callback of a nondeterministic model. *)

From Stdlib Require Import List ZArith String Bool Lia Eqdep_dec.
Import ListNotations.

Set Implicit Arguments.

(* ================================================================== *)
(** * Panics and the execution monad *)

(** The run-time panics the package can raise by itself. *)
Inductive panic : Type :=
| NilFuncCall        (* call of a nil func value *)
| TypeAssertion      (* failed x.(T) *)
| Uncomparable.      (* == on interface values of an uncomparable type *)

Inductive result (A : Type) : Type :=
| Ok (a : A)
| Panic (p : panic).
Arguments Ok {A} a.
Arguments Panic {A} p.

(** The caller-supplied callbacks of a nondeterministic model. *)
Inductive callee : Type :=
| NmPartition | NmPartitionEvent | NmInit | NmStep | NmEqual
| NmDescribeOperation | NmDescribeState.

(** A computation yields the trace of callbacks it ran and either a value or
    a panic.  There is no [recover] in the package: a panic ends the run. *)
Definition M (A : Type) : Type := (list callee * result A)%type.

Definition ret {A} (a : A) : M A := ([], Ok a).
Definition raise {A} (p : panic) : M A := ([], Panic p).
Definition tell (c : callee) : M unit := ([c], Ok tt).

Definition bind {A B} (m : M A) (k : A -> M B) : M B :=
  match m with
  | (t, Ok a) => let (t', r) := k a in (t ++ t', r)
  | (t, Panic p) => (t, Panic p)
  end.

Notation "x <- m ;; k" := (bind m (fun x => k))
  (at level 61, m at next level, right associativity).
Notation "m ;;; k" := (bind m (fun _ => k))
  (at level 61, right associativity).

Definition outcome {A} (m : M A) : result A := snd m.
Definition calls {A} (m : M A) : list callee := fst m.

(** Go func values: [None] is the nil func, and calling it panics. *)
Definition call0 {R} (f : option (unit -> M R)) : M R :=
  match f with Some g => g tt | None => raise NilFuncCall end.
Definition call1 {A R} (f : option (A -> M R)) (a : A) : M R :=
  match f with Some g => g a | None => raise NilFuncCall end.
Definition call2 {A B R} (f : option (A -> B -> M R)) (a : A) (b : B) : M R :=
  match f with Some g => g a b | None => raise NilFuncCall end.
Definition call3 {A B C R} (f : option (A -> B -> C -> M R))
    (a : A) (b : B) (c : C) : M R :=
  match f with Some g => g a b c | None => raise NilFuncCall end.

(** A pure callback written by the caller, seen as a Go func value; each run
    of its body is recorded under the name [c]. *)
Definition callback0 {R} (c : callee) (f : option (unit -> R))
    : option (unit -> M R) :=
  option_map (fun g u => tell c ;;; ret (g u)) f.
Definition callback1 {A R} (c : callee) (f : option (A -> R))
    : option (A -> M R) :=
  option_map (fun g a => tell c ;;; ret (g a)) f.
Definition callback2 {A B R} (c : callee) (f : option (A -> B -> R))
    : option (A -> B -> M R) :=
  option_map (fun g a b => tell c ;;; ret (g a b)) f.
Definition callback3 {A B C R} (c : callee) (f : option (A -> B -> C -> R))
    : option (A -> B -> C -> M R) :=
  option_map (fun g a b x => tell c ;;; ret (g a b x)) f.

(* ================================================================== *)
(** * Go types and dynamic values *)

(** Types without an interface inside: the possible dynamic types of an
    interface value.  A family that has what the package distinguishes:
    comparable types and an uncomparable one.  [int] and [int64] values are
    only stored and compared here, never computed with, so they are integers
    without a range. *)
Inductive ctype : Type :=
| TInt | TInt64 | TBool | TString
| TSlice (elem : ctype).

Fixpoint cdenote (t : ctype) : Type :=
  match t with
  | TInt | TInt64 => Z
  | TBool => bool
  | TString => string
  | TSlice e => list (cdenote e)
  end.

Definition ctype_eq_dec (t u : ctype) : {t = u} + {t <> u}.
Proof. decide equality. Defined.

(** The comparable types of this family: all but slices.  Go has further
    comparable types (floats, arrays, structs, pointers) that the family
    leaves out; on some of them [==] is not reflexive or can panic. *)
Definition comparable (t : ctype) : bool :=
  match t with TSlice _ => false | _ => true end.

(** [==] on two values of one comparable type. *)
Definition ceqb (t : ctype) : cdenote t -> cdenote t -> bool :=
  match t with
  | TInt | TInt64 => Z.eqb
  | TBool => Bool.eqb
  | TString => String.eqb
  | TSlice _ => fun _ _ => false
  end.

(** An interface value: nil, or a dynamic type with a value of it. *)
Inductive any : Type :=
| ANil
| ADyn (t : ctype) (v : cdenote t).

Definition dyn_type (a : any) : option ctype :=
  match a with ANil => None | ADyn t _ => Some t end.

(** What a type parameter [S], [I] or [O] can be instantiated with: a
    concrete type or the interface type [any]. *)
Inductive gotype : Type :=
| Conc (t : ctype)
| Iface.

Definition denote (T : gotype) : Type :=
  match T with Conc t => cdenote t | Iface => any end.

(** The zero value of a type: [var x T]. *)
Definition czero (t : ctype) : cdenote t :=
  match t with
  | TInt | TInt64 => 0%Z
  | TBool => false
  | TString => EmptyString
  | TSlice _ => []
  end.

Definition zero (T : gotype) : denote T :=
  match T with Conc t => czero t | Iface => ANil end.

(** Conversion to [any]: a concrete value is wrapped with its type, an
    interface value is kept as it is (nil stays nil). *)
Definition box (T : gotype) : denote T -> any :=
  match T with
  | Conc t => fun v => ADyn t v
  | Iface => fun a => a
  end.

(** The type assertion [x.(T)].  For a concrete [T] the dynamic type of [x]
    must be [T]; for the interface type [any] every non-nil value passes.  A
    nil interface value fails every assertion. *)
Definition assert (T : gotype) (x : any) : M (denote T) :=
  match T with
  | Conc t =>
      match x with
      | ANil => raise TypeAssertion
      | ADyn u v =>
          match ctype_eq_dec u t with
          | left e => ret (eq_rect u cdenote v t e)
          | right _ => raise TypeAssertion
          end
      end
  | Iface =>
      match x with
      | ANil => raise TypeAssertion
      | ADyn _ _ => ret x
      end
  end.

(** [x == y] on interface values: differing dynamic types are unequal, equal
    comparable types compare their values, equal uncomparable types panic. *)
Definition any_eq (x y : any) : M bool :=
  match x, y with
  | ANil, ANil => ret true
  | ANil, ADyn _ _ => ret false
  | ADyn _ _, ANil => ret false
  | ADyn t v, ADyn u w =>
      match ctype_eq_dec u t with
      | left e =>
          if comparable t
          then ret (ceqb t v (eq_rect u cdenote w t e))
          else raise Uncomparable
      | right _ => ret false
      end
  end.

(* ================================================================== *)
(** * Histories *)

(** Modelled from the spec: [porcupine.EventKind] of the imported checker,
    "kind in {call, return}". *)
Inductive EventKind : Type := CallEvent | ReturnEvent.

Definition EventKind_eqb (k1 k2 : EventKind) : bool :=
  match k1, k2 with
  | CallEvent, CallEvent | ReturnEvent, ReturnEvent => true
  | _, _ => false
  end.

(** [Operation[I, O]] (model.go, lines 20-26). *)
Record Operation (I O : Type) : Type := mkOperation {
  op_ClientId : Z;
  op_Input : I;
  op_Call : Z;
  op_Output : O;
  op_Return : Z
}.

(** [Event[I, O]] (model.go, lines 38-44). *)
Record Event (I O : Type) : Type := mkEvent {
  ev_ClientId : Z;
  ev_Kind : EventKind;
  ev_Input : I;
  ev_Output : O;
  ev_Id : Z
}.

Module porcupine.

(** Modelled from the spec: the opaque operation record of the imported
    checker, "{clientId int, input any, call int64, output any, return
    int64}". *)
Record Operation : Type := mkOperation {
  op_ClientId : Z;
  op_Input : any;
  op_Call : Z;
  op_Output : any;
  op_Return : Z
}.

(** Modelled from the spec: the opaque event record of the imported
    checker, "{clientId int, kind in {call, return}, value any, id int}". *)
Record Event : Type := mkEvent {
  ev_ClientId : Z;
  ev_Kind : EventKind;
  ev_Value : any;
  ev_Id : Z
}.

(** Modelled from the spec: the opaque model of the imported checker, "a
    structural bundle of optional functions ... all operating on a
    universal dynamic value type". *)
Record Model : Type := mkModel {
  Partition : option (list Operation -> M (list (list Operation)));
  PartitionEvent : option (list Event -> M (list (list Event)));
  Init : option (unit -> M any);
  Step : option (any -> any -> any -> M (bool * any));
  Equal : option (any -> any -> M bool);
  DescribeOperation : option (any -> any -> M string);
  DescribeState : option (any -> M string)
}.

End porcupine.

(** A [for i, x := range l] loop that fills slot [i] of a slice made with
    the length of [l], and whose body can panic. *)
Fixpoint forM {A B} (f : A -> M B) (l : list A) : M (list B) :=
  match l with
  | [] => ret []
  | a :: l' => b <- f a ;; bs <- forM f l' ;; ret (b :: bs)
  end.

Section Converters.

Variables I O : gotype.

(** model.go, lines 145-162. *)
Definition convertToUntypedEvents
    (partition : list (Event (denote I) (denote O))) : list porcupine.Event :=
  map (fun ev =>
         let value :=
           if EventKind_eqb (ev_Kind ev) CallEvent
           then box I (ev_Input ev)
           else box O (ev_Output ev) in
         porcupine.mkEvent (ev_ClientId ev) (ev_Kind ev) value (ev_Id ev))
      partition.

(** model.go, lines 164-184: [input] and [output] start as zero values and
    the one the kind selects is assigned from the asserted [ev.Value]. *)
Definition convertToTypedEvents
    (history : list porcupine.Event) : M (list (Event (denote I) (denote O))) :=
  forM (fun ev =>
          io <- (if EventKind_eqb (porcupine.ev_Kind ev) CallEvent
                 then input <- assert I (porcupine.ev_Value ev) ;;
                      ret (input, zero O)
                 else output <- assert O (porcupine.ev_Value ev) ;;
                      ret (zero I, output)) ;;
          ret (mkEvent (porcupine.ev_ClientId ev) (porcupine.ev_Kind ev)
                       (fst io) (snd io) (porcupine.ev_Id ev)))
       history.

(** model.go, lines 199-211. *)
Definition convertToUntypedOperations
    (partition : list (Operation (denote I) (denote O)))
    : list porcupine.Operation :=
  map (fun op =>
         porcupine.mkOperation (op_ClientId op) (box I (op_Input op))
           (op_Call op) (box O (op_Output op)) (op_Return op))
      partition.

(** model.go, lines 213-225. *)
Definition convertToTypedOperations
    (history : list porcupine.Operation)
    : M (list (Operation (denote I) (denote O))) :=
  forM (fun op =>
          input <- assert I (porcupine.op_Input op) ;;
          output <- assert O (porcupine.op_Output op) ;;
          ret (mkOperation (porcupine.op_ClientId op) input
                 (porcupine.op_Call op) output (porcupine.op_Return op)))
       history.

(** model.go, lines 132-143. *)
Definition applyTypedPartitionEvent
    (partitionFunc : option (list (Event (denote I) (denote O)) ->
                             M (list (list (Event (denote I) (denote O))))))
    (history : list porcupine.Event) : M (list (list porcupine.Event)) :=
  match partitionFunc with
  | None => ret []
  | Some f =>
      typedHistory <- convertToTypedEvents history ;;
      partitions <- f typedHistory ;;
      ret (map convertToUntypedEvents partitions)
  end.

(** model.go, lines 186-197. *)
Definition applyTypedPartitionOperation
    (partitionFunc : option (list (Operation (denote I) (denote O)) ->
                             M (list (list (Operation (denote I) (denote O))))))
    (history : list porcupine.Operation) : M (list (list porcupine.Operation)) :=
  match partitionFunc with
  | None => ret []
  | Some f =>
      typedHistory <- convertToTypedOperations history ;;
      partitions <- f typedHistory ;;
      ret (map convertToUntypedOperations partitions)
  end.

End Converters.

(* ================================================================== *)
(** * The typed deterministic model and its type-erasure adapter *)

Module Model.

(** [Model[S, I, O]].  The fields are Go func values: they can be nil, and
    a model built by [NondeterministicModel.ToModel] can panic. *)
Record t (S I O : Type) : Type := mk {
  Partition : option (list (Operation I O) -> M (list (list (Operation I O))));
  PartitionEvent : option (list (Event I O) -> M (list (list (Event I O))));
  Init : option (unit -> M S);
  Step : option (S -> I -> O -> M (bool * S));
  Equal : option (S -> S -> M bool);
  DescribeOperation : option (I -> O -> M string);
  DescribeState : option (S -> M string)
}.

Section ToModel.

Variables S I O : gotype.
Variable m : t (denote S) (denote I) (denote O).

(** [Model.ToModel] (model.go, lines 94-130): a field is set only when the
    typed field is not nil. *)
Definition ToModel : porcupine.Model :=
  {| porcupine.Partition :=
       match Partition m with
       | Some _ => Some (fun history =>
                     applyTypedPartitionOperation I O (Partition m) history)
       | None => None
       end;
     porcupine.PartitionEvent :=
       match PartitionEvent m with
       | Some _ => Some (fun history =>
                     applyTypedPartitionEvent I O (PartitionEvent m) history)
       | None => None
       end;
     porcupine.Init :=
       match Init m with
       | Some _ => Some (fun _ => s <- call0 (Init m) ;; ret (box S s))
       | None => None
       end;
     porcupine.Step :=
       match Step m with
       | Some _ => Some (fun state input output =>
                     s <- assert S state ;;
                     i <- assert I input ;;
                     o <- assert O output ;;
                     r <- call3 (Step m) s i o ;;
                     ret (fst r, box S (snd r)))
       | None => None
       end;
     porcupine.Equal :=
       match Equal m with
       | Some _ => Some (fun state1 state2 =>
                     s1 <- assert S state1 ;;
                     s2 <- assert S state2 ;;
                     call2 (Equal m) s1 s2)
       | None => None
       end;
     porcupine.DescribeOperation :=
       match DescribeOperation m with
       | Some _ => Some (fun input output =>
                     i <- assert I input ;;
                     o <- assert O output ;;
                     call2 (DescribeOperation m) i o)
       | None => None
       end;
     porcupine.DescribeState :=
       match DescribeState m with
       | Some _ => Some (fun state =>
                     s <- assert S state ;;
                     call1 (DescribeState m) s)
       | None => None
       end |}.

End ToModel.

End Model.

(* ================================================================== *)
(** * The power-set construction *)

Section Merge.

Variable S : Type.

(** The inner loop of [merge] and of the state-set [Equal]: is [state]
    [eq]-equal to an element of [others]?  Stops at the first hit. *)
Fixpoint find_equal (eq : option (S -> S -> M bool)) (state : S)
    (others : list S) : M bool :=
  match others with
  | [] => ret false
  | us :: rest =>
      b <- call2 eq state us ;;
      if b then ret true else find_equal eq state rest
  end.

(** The outer loop of [merge], from a given [uniqueStates]. *)
Fixpoint merge_from (eq : option (S -> S -> M bool)) (states : list S)
    (uniqueStates : list S) : M (list S) :=
  match states with
  | [] => ret uniqueStates
  | state :: rest =>
      found <- find_equal eq state uniqueStates ;;
      if found
      then merge_from eq rest uniqueStates
      else merge_from eq rest (uniqueStates ++ [state])
  end.

(** [merge] (model.go, lines 392-407). *)
Definition merge (states : list S) (eq : option (S -> S -> M bool))
    : M (list S) :=
  merge_from eq states [].

End Merge.

(** [shallowEqual] (model.go, lines 411-415): [any(state1) == any(state2)]. *)
Definition shallowEqual (S : gotype) (state1 state2 : denote S) : M bool :=
  any_eq (box S state1) (box S state2).

Module NondeterministicModel.

(** [NondeterministicModel[S, I, O]].  The fields are the caller's
    callbacks: pure functions, or nil. *)
Record t (S I O : Type) : Type := mk {
  Partition : option (list (Operation I O) -> list (list (Operation I O)));
  PartitionEvent : option (list (Event I O) -> list (list (Event I O)));
  Init : option (unit -> list S);
  Step : option (S -> I -> O -> list S);
  Equal : option (S -> S -> bool);
  DescribeOperation : option (I -> O -> string);
  DescribeState : option (S -> string)
}.

Section ToModel.

(** [fmt.Sprintf("%v", x)] of the standard library. *)
Variable Sprintf_v : any -> string.

Variables S I O : gotype.
Variable nm : t (denote S) (denote I) (denote O).

Definition defaultDescribeOperation (input : denote I) (output : denote O)
    : M string :=
  ret (Sprintf_v (box I input) ++ " -> " ++ Sprintf_v (box O output))%string.

Definition defaultDescribeState (state : denote S) : M string :=
  ret (Sprintf_v (box S state)).

(** The local [equal]: [nm.Equal], or [shallowEqual] when that is nil. *)
Definition equal : option (denote S -> denote S -> M bool) :=
  match Equal nm with
  | Some _ => callback2 NmEqual (Equal nm)
  | None => Some (shallowEqual S)
  end.

Definition describeOperation : option (denote I -> denote O -> M string) :=
  match DescribeOperation nm with
  | Some _ => callback2 NmDescribeOperation (DescribeOperation nm)
  | None => Some defaultDescribeOperation
  end.

Definition describeState : option (denote S -> M string) :=
  match DescribeState nm with
  | Some _ => callback1 NmDescribeState (DescribeState nm)
  | None => Some defaultDescribeState
  end.

(** The first loop of the converted [Step]. *)
Fixpoint collect (states : list (denote S)) (input : denote I)
    (output : denote O) (allNextStates : list (denote S))
    : M (list (denote S)) :=
  match states with
  | [] => ret allNextStates
  | state :: rest =>
      next <- call3 (callback3 NmStep (Step nm)) state input output ;;
      collect rest input output (allNextStates ++ next)
  end.

(** The outer loop of the converted [Equal]. *)
Fixpoint included (state1 state2 : list (denote S)) : M bool :=
  match state1 with
  | [] => ret true
  | s1 :: rest =>
      found <- find_equal equal s1 state2 ;;
      if found then included rest state2 else ret false
  end.

(** The loop of the converted [DescribeState]. *)
Fixpoint describe_all (states : list (denote S)) (descriptions : list string)
    : M (list string) :=
  match states with
  | [] => ret descriptions
  | state :: rest =>
      d <- call1 describeState state ;;
      describe_all rest (descriptions ++ [d])
  end.

(** [NondeterministicModel.ToModel] (model.go, lines 332-390).  [Init]
    passes the field [nm.Equal] to [merge]; [Step] and [Equal] use the local
    [equal]. *)
Definition ToModel : Model.t (list (denote S)) (denote I) (denote O) :=
  {| Model.Partition := callback1 NmPartition (Partition nm);
     Model.PartitionEvent := callback1 NmPartitionEvent (PartitionEvent nm);
     Model.Init := Some (fun _ =>
       states <- call0 (callback0 NmInit (Init nm)) ;;
       merge states (callback2 NmEqual (Equal nm)));
     Model.Step := Some (fun state input output =>
       allNextStates <- collect state input output [] ;;
       uniqueNextStates <- merge allNextStates equal ;;
       ret (0 <? List.length uniqueNextStates, uniqueNextStates));
     Model.Equal := Some (fun state1 state2 =>
       if negb (List.length state1 =? List.length state2)
       then ret false
       else included state1 state2);
     Model.DescribeOperation := describeOperation;
     Model.DescribeState := Some (fun states =>
       descriptions <- describe_all states [] ;;
       ret ("{" ++ String.concat ", " descriptions ++ "}")%string) |}.

End ToModel.

End NondeterministicModel.

(* ================================================================== *)
(** * Vocabulary of the statements *)

(** A value of an interface type that is nil; a value of a concrete type
    never is. *)
Definition nil_interface (T : gotype) (v : denote T) : Prop := box T v = ANil.

(** What [convertToTypedEvents] rebuilds from a converted event: the slot
    its kind selects, and the zero value in the other one. *)
Definition rehydrated (I O : gotype) (ev : Event (denote I) (denote O))
    : Event (denote I) (denote O) :=
  match ev_Kind ev with
  | CallEvent =>
      mkEvent (ev_ClientId ev) CallEvent (ev_Input ev) (zero O) (ev_Id ev)
  | ReturnEvent =>
      mkEvent (ev_ClientId ev) ReturnEvent (zero I) (ev_Output ev) (ev_Id ev)
  end.

(** The value slot an event carries through the opaque representation. *)
Definition carries_nil (I O : gotype) (ev : Event (denote I) (denote O)) : Prop :=
  match ev_Kind ev with
  | CallEvent => nil_interface I (ev_Input ev)
  | ReturnEvent => nil_interface O (ev_Output ev)
  end.

(** The dynamic type of [x] is the concrete type [t]. *)
Definition has_type (t : ctype) (x : any) : Prop := dyn_type x = Some t.

(** The value slot of an opaque event has the type its kind asks for. *)
Definition event_has_type (I O : ctype) (ev : porcupine.Event) : Prop :=
  match porcupine.ev_Kind ev with
  | CallEvent => has_type I (porcupine.ev_Value ev)
  | ReturnEvent => has_type O (porcupine.ev_Value ev)
  end.

Definition operation_has_type (I O : ctype) (op : porcupine.Operation) : Prop :=
  has_type I (porcupine.op_Input op) /\ has_type O (porcupine.op_Output op).

(** A typed model whose state and output are of the interface type [any]:
    a register that starts empty (nil) and keeps the last value written. *)
Definition any_register : Model.t (denote Iface) (denote (Conc TString)) (denote Iface) :=
  Model.mk None None
    (Some (fun _ => ret ANil))
    (Some (fun state input output =>
             if String.eqb input "read"
             then v <- any_eq state output ;; ret (v, state)
             else ret (true, output)))
    None None None.

(** A typed model over concrete types: a counter that accepts an increment
    when the output is the new value. *)
Definition counter : Model.t (denote (Conc TInt)) (denote (Conc TInt)) (denote (Conc TInt)) :=
  Model.mk None None
    (Some (fun _ => ret 0%Z))
    (Some (fun state input output =>
             ret (Z.eqb output (state + input), (state + input)%Z)))
    (Some (fun state1 state2 => ret (Z.eqb state1 state2)))
    (Some (fun input output => ret "inc"%string))
    (Some (fun state => ret "n"%string)).

Section EqualityVocabulary.

Variable S : Type.
Variable eq : option (S -> S -> M bool).

(** The call [eq(x, y)] returns true, respectively false. *)
Definition answers_true (x y : S) : Prop := outcome (call2 eq x y) = Ok true.
Definition answers_false (x y : S) : Prop := outcome (call2 eq x y) = Ok false.

(** No element of [l] is [eq]-equal to an earlier element of [l]. *)
Definition deduplicated (l : list S) : Prop :=
  forall i j y x,
    i < j -> nth_error l i = Some y -> nth_error l j = Some x -> answers_false x y.

(** [eq] is a func value that returns [f x y] on all [x], [y]. *)
Definition computes (f : S -> S -> bool) : Prop :=
  forall x y, outcome (call2 eq x y) = Ok (f x y).

End EqualityVocabulary.

(** The register with two replicas of the specification's scenario: a write
    of 1 may or may not have reached the replica that is read. *)
Definition register_step (state : Z) (input : string) (output : Z) : list Z :=
  if String.eqb input "write1"
  then (if Z.eqb state 0 then [0; 1] else [1])%Z
  else (if Z.eqb state output then [state] else []).

Definition register (equal : option (Z -> Z -> bool)) (init : list Z)
    : NondeterministicModel.t (denote (Conc TInt)) (denote (Conc TString))
                              (denote (Conc TInt)) :=
  NondeterministicModel.mk None None
    (Some (fun _ => init)) (Some register_step) equal None None.

Section StateSets.

Variable Sprintf_v : any -> string.
Variables S I O : gotype.
Variable nm : NondeterministicModel.t (denote S) (denote I) (denote O).

Local Abbreviation converted := (NondeterministicModel.ToModel Sprintf_v S I O nm).

(** The state-sets the converted model hands out: what its [Init] returns
    and the state-set of whatever its [Step] returns, on any arguments. *)
Inductive produced : list (denote S) -> Prop :=
| produced_Init l :
    outcome (call0 (Model.Init converted)) = Ok l -> produced l
| produced_Step state input output ok l :
    outcome (call3 (Model.Step converted) state input output) = Ok (ok, l) ->
    produced l.

(** The state-sets a run of the checker can be in: the initial one and the
    ones reached by successful steps. *)
Inductive reachable : list (denote S) -> Prop :=
| reachable_Init l :
    outcome (call0 (Model.Init converted)) = Ok l -> reachable l
| reachable_Step state input output l :
    reachable state ->
    outcome (call3 (Model.Step converted) state input output) = Ok (true, l) ->
    reachable l.

End StateSets.

(** [l1] is [l2] with some elements left out, the order kept. *)
Inductive subsequence {A : Type} : list A -> list A -> Prop :=
| subsequence_nil : subsequence [] []
| subsequence_keep x l1 l2 : subsequence l1 l2 -> subsequence (x :: l1) (x :: l2)
| subsequence_drop x l1 l2 : subsequence l1 l2 -> subsequence l1 (x :: l2).




(** [eq] runs no recorded callback, or exactly the caller's [Equal]. *)
Definition counted_eq {S : Type} (eq : option (S -> S -> M bool)) : Prop :=
  forall a b, calls (call2 eq a b) = [] \/ calls (call2 eq a b) = [NmEqual].

(* ================================================================== *)
(** * The direct conversion to an opaque model *)

(** [convertSliceToAny] (model.go, lines 313-319). *)
Definition convertSliceToAny (S : gotype) (s : list (denote S)) : list any :=
  map (box S) s.

Module porcupineNondeterministic.

(** The opaque nondeterministic model of the imported checker, with the
    fields and func types [ToUntypedModel] assigns (model.go, lines
    274-309). *)
Record Model : Type := mkModel {
  Partition : option (list porcupine.Operation -> M (list (list porcupine.Operation)));
  PartitionEvent : option (list porcupine.Event -> M (list (list porcupine.Event)));
  Init : option (unit -> M (list any));
  Step : option (any -> any -> any -> M (list any));
  Equal : option (any -> any -> M bool);
  DescribeOperation : option (any -> any -> M string);
  DescribeState : option (any -> M string)
}.

End porcupineNondeterministic.

Section ToUntypedModel.

(** [porcupine.NondeterministicModel.ToModel] of the imported checker. *)
Variable porcupine_ToModel : porcupineNondeterministic.Model -> porcupine.Model.

Variables S I O : gotype.
Variable nm : NondeterministicModel.t (denote S) (denote I) (denote O).

(** The local [model] that [ToUntypedModel] fills in (model.go, lines
    274-309): a field is set only when the typed field is not nil. *)
Definition untypedNondeterministic : porcupineNondeterministic.Model :=
  {| porcupineNondeterministic.Partition :=
       match NondeterministicModel.Partition nm with
       | Some _ => Some (fun history =>
                     applyTypedPartitionOperation I O
                       (callback1 NmPartition (NondeterministicModel.Partition nm))
                       history)
       | None => None
       end;
     porcupineNondeterministic.PartitionEvent :=
       match NondeterministicModel.PartitionEvent nm with
       | Some _ => Some (fun history =>
                     applyTypedPartitionEvent I O
                       (callback1 NmPartitionEvent
                          (NondeterministicModel.PartitionEvent nm))
                       history)
       | None => None
       end;
     porcupineNondeterministic.Init :=
       match NondeterministicModel.Init nm with
       | Some _ => Some (fun _ =>
                     states <- call0 (callback0 NmInit (NondeterministicModel.Init nm)) ;;
                     ret (convertSliceToAny S states))
       | None => None
       end;
     porcupineNondeterministic.Step :=
       match NondeterministicModel.Step nm with
       | Some _ => Some (fun state input output =>
                     s <- assert S state ;;
                     i <- assert I input ;;
                     o <- assert O output ;;
                     next <- call3 (callback3 NmStep (NondeterministicModel.Step nm))
                               s i o ;;
                     ret (convertSliceToAny S next))
       | None => None
       end;
     porcupineNondeterministic.Equal :=
       match NondeterministicModel.Equal nm with
       | Some _ => Some (fun state1 state2 =>
                     s1 <- assert S state1 ;;
                     s2 <- assert S state2 ;;
                     call2 (callback2 NmEqual (NondeterministicModel.Equal nm)) s1 s2)
       | None => None
       end;
     porcupineNondeterministic.DescribeOperation :=
       match NondeterministicModel.DescribeOperation nm with
       | Some _ => Some (fun input output =>
                     i <- assert I input ;;
                     o <- assert O output ;;
                     call2 (callback2 NmDescribeOperation
                              (NondeterministicModel.DescribeOperation nm)) i o)
       | None => None
       end;
     porcupineNondeterministic.DescribeState :=
       match NondeterministicModel.DescribeState nm with
       | Some _ => Some (fun state =>
                     s <- assert S state ;;
                     call1 (callback1 NmDescribeState
                              (NondeterministicModel.DescribeState nm)) s)
       | None => None
       end |}.

(** [NondeterministicModel.ToUntypedModel] (model.go, lines 273-311). *)
Definition ToUntypedModel : porcupine.Model :=
  porcupine_ToModel untypedNondeterministic.

End ToUntypedModel.

(* ================================================================== *)
(** * Properties *)

(** ** The monad *)

Lemma bind_ret_l {A B} (a : A) (k : A -> M B) : bind (ret a) k = k a.
Proof. unfold bind, ret. simpl. destruct (k a); reflexivity. Qed.

Lemma bind_raise {A B} (p : panic) (k : A -> M B) : bind (raise p) k = raise p.
Proof. reflexivity. Qed.

Lemma outcome_bind {A B} (m : M A) (k : A -> M B) :
  outcome (bind m k) =
  match outcome m with Ok a => outcome (k a) | Panic p => Panic p end.
Proof.
  destruct m as [t [a|p]]; simpl; [destruct (k a) |]; reflexivity.
Qed.

Lemma calls_bind {A B} (m : M A) (k : A -> M B) :
  calls (bind m k) =
  calls m ++ match outcome m with Ok a => calls (k a) | Panic _ => [] end.
Proof.
  destruct m as [t [a|p]]; simpl; [destruct (k a) |]; simpl;
    [reflexivity | symmetry; apply app_nil_r].
Qed.

Lemma forM_cons {A B} (f : A -> M B) (a : A) (l : list A) :
  forM f (a :: l) = (b <- f a ;; bs <- forM f l ;; ret (b :: bs)).
Proof. reflexivity. Qed.

Lemma forM_map_ret {A B C} (f : B -> M C) (g : A -> B) (h : A -> C) (l : list A) :
  Forall (fun a => f (g a) = ret (h a)) l ->
  forM f (map g l) = ret (map h l).
Proof.
  induction 1 as [|a l Ha _ IH]; simpl; [reflexivity |].
  rewrite Ha, bind_ret_l, IH, bind_ret_l. reflexivity.
Qed.

Lemma forM_raise {A B} (f : A -> M B) (p : panic) (l : list A) :
  Forall (fun a => f a = raise p \/ exists b, f a = ret b) l ->
  Exists (fun a => f a = raise p) l ->
  forM f l = raise p.
Proof.
  induction 1 as [|a l Ha Hl IH]; intros Hex; [inversion Hex |].
  simpl. destruct Ha as [Ha | [b Ha]]; rewrite Ha.
  - reflexivity.
  - rewrite bind_ret_l.
    inversion Hex as [? ? Hbad | ? ? Hrest]; subst;
      [rewrite Ha in Hbad; discriminate |].
    rewrite (IH Hrest). reflexivity.
Qed.

(** ** Boxing and type assertion *)


Lemma conc_not_nil_interface (t : ctype) (v : cdenote t) :
  ~ nil_interface (Conc t) v.
Proof. unfold nil_interface. simpl. discriminate. Qed.

Lemma ctype_eq_dec_refl (t : ctype) : ctype_eq_dec t t = left eq_refl.
Proof.
  destruct (ctype_eq_dec t t) as [e|n]; [| contradiction].
  f_equal. apply UIP_dec, ctype_eq_dec.
Qed.

Lemma assert_conc_dyn (t : ctype) (v : cdenote t) :
  assert (Conc t) (ADyn t v) = ret v.
Proof. simpl. rewrite ctype_eq_dec_refl. reflexivity. Qed.

Lemma assert_box (T : gotype) (v : denote T) :
  ~ nil_interface T v -> assert T (box T v) = ret v.
Proof.
  destruct T as [t|]; intros Hv.
  - apply assert_conc_dyn.
  - destruct v; [contradiction Hv; reflexivity | reflexivity].
Qed.

Lemma assert_nil (T : gotype) : assert T ANil = raise TypeAssertion.
Proof. destruct T; reflexivity. Qed.

Lemma assert_conc_mismatch (t : ctype) (x : any) :
  dyn_type x <> Some t -> assert (Conc t) x = raise TypeAssertion.
Proof.
  destruct x as [|u v]; simpl; intros Hx; [reflexivity |].
  destruct (ctype_eq_dec u t) as [e|n]; [congruence | reflexivity].
Qed.

Lemma dyn_type_Some (t : ctype) (x : any) :
  dyn_type x = Some t -> exists v, x = ADyn t v.
Proof.
  destruct x as [|u v]; simpl; intros Hx; [discriminate |].
  injection Hx as ->. exists v. reflexivity.
Qed.

Lemma assert_conc_cases (t : ctype) (x : any) :
  assert (Conc t) x = raise TypeAssertion \/ exists v, assert (Conc t) x = ret v.
Proof.
  destruct x as [|u v]; simpl; [left; reflexivity |].
  destruct (ctype_eq_dec u t); [right; eexists | left]; reflexivity.
Qed.

(** ** History round trips *)


Lemma events_roundtrip_map (I O : gotype) (H : list (Event (denote I) (denote O))) :
  Forall (fun ev => ~ carries_nil I O ev) H ->
  convertToTypedEvents I O (convertToUntypedEvents I O H)
  = ret (map (rehydrated I O) H).
Proof.
  intros HH. unfold convertToTypedEvents, convertToUntypedEvents.
  apply forM_map_ret.
  eapply Forall_impl; [| exact HH].
  intros [cid kind inp out id]. unfold carries_nil, rehydrated. simpl.
  destruct kind; simpl; intros Hv;
    rewrite (assert_box Hv), !bind_ret_l; reflexivity.
Qed.

(** C5 (as amended).  For every typed operation sequence [H], of any input
    and output types, in which no [Input] or [Output] field holds a nil
    interface value, converting to the opaque representation with
    [convertToUntypedOperations] and back with [convertToTypedOperations]
    returns [H] itself: [ClientId], [Input], [Call], [Output] and [Return] of
    every element are unchanged.  Values of a non-interface type are never
    nil interface values. *)
Theorem operations_roundtrip (I O : gotype)
    (H : list (Operation (denote I) (denote O))) :
  Forall (fun op => ~ nil_interface I (op_Input op) /\
                    ~ nil_interface O (op_Output op)) H ->
  convertToTypedOperations I O (convertToUntypedOperations I O H) = ret H.
Proof.
  intros HH.
  replace (ret H) with (ret (map (fun op => op) H)) by (now rewrite map_id).
  unfold convertToTypedOperations, convertToUntypedOperations.
  apply forM_map_ret.
  eapply Forall_impl; [| exact HH].
  intros [cid inp c out r]; simpl; intros [Hi Ho].
  rewrite (assert_box Hi), bind_ret_l, (assert_box Ho), bind_ret_l.
  reflexivity.
Qed.

Lemma operations_roundtrip_witness :
  convertToTypedOperations (Conc TString) (Conc TInt)
    (convertToUntypedOperations (Conc TString) (Conc TInt)
       [mkOperation 0 "put"%string 10 1%Z 20; mkOperation 1 "get"%string 15 1%Z 30])
  = ret [mkOperation 0 "put"%string 10 1%Z 20; mkOperation 1 "get"%string 15 1%Z 30].
Proof.
  apply operations_roundtrip.
  repeat constructor; simpl; apply conc_not_nil_interface.
Defined.

(** C5 as stated fails: an operation whose output has the interface type
    [any] and is nil does not survive the round trip, the assertion
    [op.Output.(O)] panics on it. *)
Lemma operations_roundtrip_nil_output :
  outcome (convertToTypedOperations (Conc TString) Iface
             (convertToUntypedOperations (Conc TString) Iface
                [mkOperation 0 "put"%string 10 ANil 20]))
  = Panic TypeAssertion /\
  outcome (convertToTypedOperations (Conc TString) Iface
             (convertToUntypedOperations (Conc TString) Iface
                [mkOperation 0 "put"%string 10 ANil 20]))
  <> Ok [mkOperation 0 "put"%string 10 ANil 20].
Proof. split; [reflexivity | discriminate]. Qed.

(** C6 (as amended).  For every typed event sequence in which no call event
    has a nil interface value as [Input] and no return event has one as
    [Output], converting with [convertToUntypedEvents] and back with
    [convertToTypedEvents] returns a sequence that agrees with the original
    element by element on [ClientId], [Kind] and [Id]; for a call event the
    rehydrated [Input] is the original one and the rehydrated [Output] is the
    zero value of the output type; for a return event the rehydrated [Output]
    is the original one and the rehydrated [Input] is the zero value of the
    input type. *)
Theorem events_roundtrip (I O : gotype) (H : list (Event (denote I) (denote O))) :
  Forall (fun ev => ~ carries_nil I O ev) H ->
  exists H',
    convertToTypedEvents I O (convertToUntypedEvents I O H) = ret H' /\
    Forall2 (fun ev ev' =>
               ev_ClientId ev' = ev_ClientId ev /\
               ev_Kind ev' = ev_Kind ev /\
               ev_Id ev' = ev_Id ev /\
               (ev_Kind ev = CallEvent ->
                  ev_Input ev' = ev_Input ev /\ ev_Output ev' = zero O) /\
               (ev_Kind ev = ReturnEvent ->
                  ev_Output ev' = ev_Output ev /\ ev_Input ev' = zero I))
            H H'.
Proof.
  intros HH. exists (map (rehydrated I O) H).
  split; [apply events_roundtrip_map; exact HH |].
  clear HH. induction H as [|[cid kind inp out id] H IH]; simpl; constructor;
    [| exact IH].
  unfold rehydrated; destruct kind; simpl;
    repeat split; try reflexivity; discriminate.
Qed.

Lemma events_roundtrip_witness :
  exists H',
    convertToTypedEvents (Conc TString) (Conc TInt)
      (convertToUntypedEvents (Conc TString) (Conc TInt)
         [mkEvent 0 CallEvent "get"%string 7%Z 1;
          mkEvent 0 ReturnEvent "get"%string 7%Z 1]) = ret H' /\
    Forall2 (fun ev ev' =>
               ev_ClientId ev' = ev_ClientId ev /\
               ev_Kind ev' = ev_Kind ev /\
               ev_Id ev' = ev_Id ev /\
               (ev_Kind ev = CallEvent ->
                  ev_Input ev' = ev_Input ev /\ ev_Output ev' = zero (Conc TInt)) /\
               (ev_Kind ev = ReturnEvent ->
                  ev_Output ev' = ev_Output ev /\ ev_Input ev' = zero (Conc TString)))
            [mkEvent 0 CallEvent "get"%string 7%Z 1;
             mkEvent 0 ReturnEvent "get"%string 7%Z 1] H'.
Proof.
  apply events_roundtrip.
  repeat constructor; unfold carries_nil; simpl; apply conc_not_nil_interface.
Defined.

(** C6 as stated fails: a return event whose output has the interface type
    [any] and is nil makes [convertToTypedEvents] panic, so nothing is
    preserved. *)
Lemma events_roundtrip_nil_output :
  outcome (convertToTypedEvents (Conc TString) Iface
             (convertToUntypedEvents (Conc TString) Iface
                [mkEvent 0 CallEvent "put"%string ANil 1;
                 mkEvent 0 ReturnEvent EmptyString ANil 1]))
  = Panic TypeAssertion.
Proof. reflexivity. Qed.

(** ** The type-erasure adapter *)

(** C7 (as amended).  For every typed model [m] with a non-nil [Step]
    function [step], and every state [s], input [i] and output [o] of the
    declared types none of which is a nil interface value: the [Step] of
    [m.ToModel()] on the erased [s], [i], [o] does exactly what [step s i o]
    does and returns its success flag and its new state, erased. *)
Theorem adapter_step_transparent (S I O : gotype)
    (m : Model.t (denote S) (denote I) (denote O))
    (step : denote S -> denote I -> denote O -> M (bool * denote S))
    (s : denote S) (i : denote I) (o : denote O) :
  Model.Step m = Some step ->
  ~ nil_interface S s -> ~ nil_interface I i -> ~ nil_interface O o ->
  call3 (porcupine.Step (Model.ToModel S I O m)) (box S s) (box I i) (box O o)
  = (r <- step s i o ;; ret (fst r, box S (snd r))).
Proof.
  intros Hstep Hs Hi Ho. unfold Model.ToModel. simpl. rewrite Hstep. simpl.
  rewrite (assert_box Hs), bind_ret_l, (assert_box Hi), bind_ret_l,
    (assert_box Ho), bind_ret_l.
  reflexivity.
Qed.

Lemma adapter_step_transparent_witness :
  call3 (porcupine.Step (Model.ToModel (Conc TInt) (Conc TInt) (Conc TInt) counter))
    (ADyn TInt 4%Z) (ADyn TInt 1%Z) (ADyn TInt 5%Z)
  = ret (true, ADyn TInt 5%Z).
Proof.
  exact (@adapter_step_transparent (Conc TInt) (Conc TInt) (Conc TInt) counter
           _ 4%Z 1%Z 5%Z eq_refl
           (@conc_not_nil_interface TInt 4%Z)
           (@conc_not_nil_interface TInt 1%Z)
           (@conc_not_nil_interface TInt 5%Z)).
Defined.

(** C7 as stated fails: with the state type [any], the nil state makes the
    adapted [Step] panic, while the typed [Step] accepts it. *)
Lemma adapter_step_nil_state :
  outcome (call3 (porcupine.Step (Model.ToModel Iface (Conc TString) Iface any_register))
             (box Iface ANil) (box (Conc TString) "write"%string)
             (box Iface (ADyn TInt 1%Z)))
  = Panic TypeAssertion /\
  outcome (r <- call3 (Model.Step any_register) ANil "write"%string (ADyn TInt 1%Z) ;;
           ret (fst r, box Iface (snd r)))
  = Ok (true, ADyn TInt 1%Z).
Proof. split; reflexivity. Qed.

Lemma assert_conc_dec (t : ctype) (x : any) :
  (exists v, x = ADyn t v /\ assert (Conc t) x = ret v) \/
  (~ has_type t x /\ assert (Conc t) x = raise TypeAssertion).
Proof.
  destruct x as [|u v].
  - right. split; [discriminate | reflexivity].
  - destruct (ctype_eq_dec u t) as [e|n].
    + subst u. left. exists v. split; [reflexivity | apply assert_conc_dyn].
    + right. split; [intros H; injection H; exact n |].
      apply assert_conc_mismatch. intros H; injection H; exact n.
Qed.

Ltac downcast t x :=
  let v := fresh "v" in
  let Hx := fresh "Hx" in
  let Ha := fresh "Ha" in
  destruct (assert_conc_dec t x) as [[v [Hx Ha]] | [Hx Ha]];
  rewrite Ha; [rewrite bind_ret_l | try reflexivity].

Lemma convertToTypedOperations_typed (I O : ctype) (history : list porcupine.Operation) :
  Forall (operation_has_type I O) history ->
  exists H, convertToTypedOperations (Conc I) (Conc O) history = ret H /\
            convertToUntypedOperations (Conc I) (Conc O) H = history.
Proof.
  induction 1 as [|[cid inp c out r] history [Hi Ho] _ [H [HH Hback]]].
  - exists []. split; reflexivity.
  - simpl in Hi, Ho.
    destruct (@dyn_type_Some I inp Hi) as [i ->].
    destruct (@dyn_type_Some O out Ho) as [o ->].
    exists (mkOperation cid i c o r :: H). split.
    + unfold convertToTypedOperations in *. rewrite forM_cons, HH.
      cbn [porcupine.op_Input porcupine.op_Output].
      rewrite !assert_conc_dyn, !bind_ret_l. reflexivity.
    + simpl. rewrite Hback. reflexivity.
Qed.

Lemma convertToTypedOperations_mistyped (I O : ctype) (history : list porcupine.Operation) :
  Exists (fun op => ~ operation_has_type I O op) history ->
  convertToTypedOperations (Conc I) (Conc O) history = raise TypeAssertion.
Proof.
  intros Hex. apply forM_raise.
  - apply Forall_forall. intros [cid inp c out r] _.
    cbn [porcupine.op_Input porcupine.op_Output].
    downcast I inp; [| left; reflexivity].
    downcast O out; [| left; reflexivity].
    right. eexists. reflexivity.
  - eapply Exists_impl; [| exact Hex].
    intros [cid inp c out r] Hbad. unfold operation_has_type in Hbad.
    cbn [porcupine.op_Input porcupine.op_Output] in *.
    downcast I inp. downcast O out.
    exfalso. apply Hbad. subst. split; reflexivity.
Qed.

Lemma convertToTypedEvents_typed (I O : ctype) (history : list porcupine.Event) :
  Forall (event_has_type I O) history ->
  exists H, convertToTypedEvents (Conc I) (Conc O) history = ret H /\
            convertToUntypedEvents (Conc I) (Conc O) H = history.
Proof.
  induction 1 as [|[cid kind value id] history Hv _ [H [HH Hback]]].
  - exists []. split; reflexivity.
  - unfold event_has_type in Hv. simpl in Hv.
    destruct kind; destruct (@dyn_type_Some _ value Hv) as [v ->].
    + exists (mkEvent cid CallEvent v (czero O) id :: H). split.
      * unfold convertToTypedEvents in *. rewrite forM_cons, HH.
        cbn [porcupine.ev_Kind porcupine.ev_Value EventKind_eqb].
        rewrite !assert_conc_dyn, !bind_ret_l. reflexivity.
      * simpl. rewrite Hback. reflexivity.
    + exists (mkEvent cid ReturnEvent (czero I) v id :: H). split.
      * unfold convertToTypedEvents in *. rewrite forM_cons, HH.
        cbn [porcupine.ev_Kind porcupine.ev_Value EventKind_eqb].
        rewrite !assert_conc_dyn, !bind_ret_l. reflexivity.
      * simpl. rewrite Hback. reflexivity.
Qed.

Lemma convertToTypedEvents_mistyped (I O : ctype) (history : list porcupine.Event) :
  Exists (fun ev => ~ event_has_type I O ev) history ->
  convertToTypedEvents (Conc I) (Conc O) history = raise TypeAssertion.
Proof.
  intros Hex. apply forM_raise.
  - apply Forall_forall. intros [cid kind value id] _.
    destruct kind; cbn [porcupine.ev_Kind porcupine.ev_Value EventKind_eqb].
    + downcast I value; [| left; reflexivity].
      right. rewrite !bind_ret_l. eexists. reflexivity.
    + downcast O value; [| left; reflexivity].
      right. rewrite !bind_ret_l. eexists. reflexivity.
  - eapply Exists_impl; [| exact Hex].
    intros [cid kind value id] Hbad. unfold event_has_type in Hbad.
    destruct kind; cbn [porcupine.ev_Kind porcupine.ev_Value EventKind_eqb] in *.
    + downcast I value. exfalso. apply Hbad. subst. reflexivity.
    + downcast O value. exfalso. apply Hbad. subst. reflexivity.
Qed.

Section DowncastFailure.

Variables S I O : ctype.
Variable m : Model.t (denote (Conc S)) (denote (Conc I)) (denote (Conc O)).

Local Abbreviation adapted := (Model.ToModel (Conc S) (Conc I) (Conc O) m).

Ltac enter H :=
  unfold Model.ToModel;
  cbn [porcupine.Step porcupine.Equal porcupine.DescribeOperation
       porcupine.DescribeState];
  rewrite H; cbv beta iota delta [call1 call2 call3].

Lemma adapted_Step_mistyped step st inp out :
  Model.Step m = Some step ->
  ~ (has_type S st /\ has_type I inp /\ has_type O out) ->
  call3 (porcupine.Step adapted) st inp out = raise TypeAssertion.
Proof.
  intros Hm Hbad. enter Hm.
  downcast S st. downcast I inp. downcast O out.
  exfalso. apply Hbad. subst. repeat split; reflexivity.
Qed.

Lemma adapted_Equal_mistyped equal st1 st2 :
  Model.Equal m = Some equal ->
  ~ (has_type S st1 /\ has_type S st2) ->
  call2 (porcupine.Equal adapted) st1 st2 = raise TypeAssertion.
Proof.
  intros Hm Hbad. enter Hm.
  downcast S st1. downcast S st2.
  exfalso. apply Hbad. subst. repeat split; reflexivity.
Qed.

Lemma adapted_DescribeOperation_mistyped describe inp out :
  Model.DescribeOperation m = Some describe ->
  ~ (has_type I inp /\ has_type O out) ->
  call2 (porcupine.DescribeOperation adapted) inp out = raise TypeAssertion.
Proof.
  intros Hm Hbad. enter Hm.
  downcast I inp. downcast O out.
  exfalso. apply Hbad. subst. repeat split; reflexivity.
Qed.

Lemma adapted_DescribeState_mistyped describe st :
  Model.DescribeState m = Some describe ->
  ~ has_type S st ->
  call1 (porcupine.DescribeState adapted) st = raise TypeAssertion.
Proof.
  intros Hm Hbad. enter Hm.
  downcast S st.
  exfalso. apply Hbad. subst. reflexivity.
Qed.

(** C8.  With declared concrete types [S], [I], [O]: each of the wrapped
    [Step], [Equal], [DescribeOperation] and [DescribeState] of
    [Model.ToModel], and each of [convertToTypedOperations] and
    [convertToTypedEvents], panics with a failed type assertion, before any
    callback of the model has run, as soon as one of the dynamic values it
    downcasts does not have the declared type as its run-time type.  When
    all of them have it, no assertion fails: the typed callback receives the
    very values that were boxed, and the rehydrated history converts back to
    the opaque one it came from. *)
Theorem downcast_failure_is_fatal :
  (forall step st inp out,
      Model.Step m = Some step ->
      (~ (has_type S st /\ has_type I inp /\ has_type O out) ->
       call3 (porcupine.Step adapted) st inp out = raise TypeAssertion) /\
      (forall s i o,
          st = ADyn S s -> inp = ADyn I i -> out = ADyn O o ->
          call3 (porcupine.Step adapted) st inp out
          = (r <- step s i o ;; ret (fst r, ADyn S (snd r))))) /\
  (forall equal st1 st2,
      Model.Equal m = Some equal ->
      (~ (has_type S st1 /\ has_type S st2) ->
       call2 (porcupine.Equal adapted) st1 st2 = raise TypeAssertion) /\
      (forall s1 s2,
          st1 = ADyn S s1 -> st2 = ADyn S s2 ->
          call2 (porcupine.Equal adapted) st1 st2 = equal s1 s2)) /\
  (forall describe inp out,
      Model.DescribeOperation m = Some describe ->
      (~ (has_type I inp /\ has_type O out) ->
       call2 (porcupine.DescribeOperation adapted) inp out = raise TypeAssertion) /\
      (forall i o,
          inp = ADyn I i -> out = ADyn O o ->
          call2 (porcupine.DescribeOperation adapted) inp out = describe i o)) /\
  (forall describe st,
      Model.DescribeState m = Some describe ->
      (~ has_type S st ->
       call1 (porcupine.DescribeState adapted) st = raise TypeAssertion) /\
      (forall s,
          st = ADyn S s ->
          call1 (porcupine.DescribeState adapted) st = describe s)) /\
  (forall history,
      (Exists (fun op => ~ operation_has_type I O op) history ->
       convertToTypedOperations (Conc I) (Conc O) history = raise TypeAssertion) /\
      (Forall (operation_has_type I O) history ->
       exists H,
         convertToTypedOperations (Conc I) (Conc O) history = ret H /\
         convertToUntypedOperations (Conc I) (Conc O) H = history)) /\
  (forall history,
      (Exists (fun ev => ~ event_has_type I O ev) history ->
       convertToTypedEvents (Conc I) (Conc O) history = raise TypeAssertion) /\
      (Forall (event_has_type I O) history ->
       exists H,
         convertToTypedEvents (Conc I) (Conc O) history = ret H /\
         convertToUntypedEvents (Conc I) (Conc O) H = history)).
Proof.
  repeat apply conj.
  - intros step st inp out Hm. split.
    + apply adapted_Step_mistyped with (1 := Hm).
    + intros s i o -> -> ->. enter Hm.
      rewrite !assert_conc_dyn, !bind_ret_l. reflexivity.
  - intros equal st1 st2 Hm. split.
    + apply adapted_Equal_mistyped with (1 := Hm).
    + intros s1 s2 -> ->. enter Hm.
      rewrite !assert_conc_dyn, !bind_ret_l. reflexivity.
  - intros describe inp out Hm. split.
    + apply adapted_DescribeOperation_mistyped with (1 := Hm).
    + intros i o -> ->. enter Hm.
      rewrite !assert_conc_dyn, !bind_ret_l. reflexivity.
  - intros describe st Hm. split.
    + apply adapted_DescribeState_mistyped with (1 := Hm).
    + intros s ->. enter Hm.
      rewrite !assert_conc_dyn, !bind_ret_l. reflexivity.
  - intros history. split.
    + apply convertToTypedOperations_mistyped.
    + apply convertToTypedOperations_typed.
  - intros history. split.
    + apply convertToTypedEvents_mistyped.
    + apply convertToTypedEvents_typed.
Qed.

End DowncastFailure.

Lemma downcast_failure_is_fatal_witness :
  call3 (porcupine.Step (Model.ToModel (Conc TInt) (Conc TInt) (Conc TInt) counter))
    (ADyn TString "four"%string) (ADyn TInt 1%Z) (ADyn TInt 5%Z)
  = raise TypeAssertion /\
  call3 (porcupine.Step (Model.ToModel (Conc TInt) (Conc TInt) (Conc TInt) counter))
    (ADyn TInt 4%Z) (ADyn TInt 1%Z) (ADyn TInt 5%Z)
  = ret (true, ADyn TInt 5%Z) /\
  call2 (porcupine.Equal (Model.ToModel (Conc TInt) (Conc TInt) (Conc TInt) counter))
    (ADyn TInt 4%Z) ANil
  = raise TypeAssertion /\
  convertToTypedOperations (Conc TInt) (Conc TInt)
    [porcupine.mkOperation 0 (ADyn TInt 1%Z) 10 (ADyn TBool true) 20]
  = raise TypeAssertion /\
  convertToTypedEvents (Conc TInt) (Conc TInt)
    [porcupine.mkEvent 0 CallEvent (ADyn TInt 1%Z) 7]
  = ret [mkEvent 0 CallEvent 1%Z 0%Z 7].
Proof.
  destruct (@downcast_failure_is_fatal TInt TInt TInt counter)
    as (HStep & HEqual & _ & _ & Hops & Hevs).
  repeat apply conj.
  - apply (proj1 (HStep _ (ADyn TString "four"%string) (ADyn TInt 1%Z)
                    (ADyn TInt 5%Z) eq_refl)).
    intros [Hst _]. discriminate Hst.
  - apply (proj2 (HStep _ (ADyn TInt 4%Z) (ADyn TInt 1%Z) (ADyn TInt 5%Z) eq_refl)
             4%Z 1%Z 5%Z eq_refl eq_refl eq_refl).
  - apply (proj1 (HEqual _ (ADyn TInt 4%Z) ANil eq_refl)).
    intros [_ Hst]. discriminate Hst.
  - apply (proj1 (Hops _)). constructor. intros [_ Hout]. discriminate Hout.
  - destruct (proj2 (Hevs [porcupine.mkEvent 0 CallEvent (ADyn TInt 1%Z) 7]))
      as [H [HH Hback]].
    + repeat constructor.
    + rewrite HH. f_equal.
      destruct H as [|[cid kind inp out id] [|? ?]]; try discriminate Hback.
      injection Hback as -> -> Hv ->. simpl in Hv.
      injection Hv as Hv.
      apply (inj_pair2_eq_dec _ ctype_eq_dec) in Hv. subst inp.
      vm_compute in HH. injection HH as ->. reflexivity.
Defined.

(** ** Deduplication *)

Unset Implicit Arguments.

Section MergeFacts.

Variable S : Type.
Variable eq : option (S -> S -> M bool).

Lemma find_equal_cons (state us : S) (rest : list S) :
  outcome (find_equal eq state (us :: rest)) =
  match outcome (call2 eq state us) with
  | Ok true => Ok true
  | Ok false => outcome (find_equal eq state rest)
  | Panic p => Panic p
  end.
Proof.
  simpl find_equal. rewrite outcome_bind.
  destruct (outcome (call2 eq state us)) as [[|]|p]; reflexivity.
Qed.

Lemma merge_from_cons (state : S) (rest uniqueStates : list S) :
  outcome (merge_from eq (state :: rest) uniqueStates) =
  match outcome (find_equal eq state uniqueStates) with
  | Ok true => outcome (merge_from eq rest uniqueStates)
  | Ok false => outcome (merge_from eq rest (uniqueStates ++ [state]))
  | Panic p => Panic p
  end.
Proof.
  simpl merge_from. rewrite outcome_bind.
  destruct (outcome (find_equal eq state uniqueStates)) as [[|]|p]; reflexivity.
Qed.

Lemma find_equal_false (state : S) (others : list S) :
  outcome (find_equal eq state others) = Ok false <->
  Forall (answers_false eq state) others.
Proof.
  induction others as [|us rest IH].
  - split; [constructor | reflexivity].
  - rewrite find_equal_cons. split.
    + intros H.
      destruct (outcome (call2 eq state us)) as [[|]|p] eqn:E; try discriminate.
      constructor; [exact E | apply IH; exact H].
    + intros H. inversion H as [|? ? E Hrest]; subst.
      unfold answers_false in E. rewrite E. apply IH; exact Hrest.
Qed.

Lemma find_equal_true (state : S) (others : list S) :
  outcome (find_equal eq state others) = Ok true ->
  exists us, In us others /\ answers_true eq state us.
Proof.
  induction others as [|us rest IH]; [discriminate |].
  rewrite find_equal_cons.
  destruct (outcome (call2 eq state us)) as [[|]|p] eqn:E; try discriminate.
  - intros _. exists us. split; [left; reflexivity | exact E].
  - intros H. destruct (IH H) as [y [Hin Hy]].
    exists y. split; [right; exact Hin | exact Hy].
Qed.

Lemma find_equal_computes (f : S -> S -> bool) (state : S) (others : list S) :
  computes eq f ->
  outcome (find_equal eq state others) = Ok (existsb (f state) others).
Proof.
  intros Hf. induction others as [|us rest IH]; [reflexivity |].
  rewrite find_equal_cons, Hf. simpl. destruct (f state us); [reflexivity | exact IH].
Qed.

(** [deduplicated], by cutting the list at an element. *)
Lemma deduplicated_split (l : list S) :
  deduplicated eq l <->
  (forall l1 x l2, l = l1 ++ x :: l2 -> Forall (answers_false eq x) l1).
Proof.
  split.
  - intros Hd l1 x l2 ->. apply Forall_forall. intros y Hy.
    destruct (In_nth_error _ _ Hy) as [i Hi].
    assert (Hlt : i < List.length l1) by (apply nth_error_Some; congruence).
    apply (Hd i (List.length l1) y x Hlt).
    + rewrite nth_error_app1 by exact Hlt. exact Hi.
    + rewrite nth_error_app2 by apply Nat.le_refl.
      rewrite Nat.sub_diag. reflexivity.
  - intros Hs i j y x Hlt Hi Hj.
    destruct (nth_error_split _ _ Hj) as (l1 & l2 & -> & Hlen).
    specialize (Hs l1 x l2 eq_refl). rewrite Forall_forall in Hs.
    apply Hs. rewrite nth_error_app1 in Hi by (rewrite Hlen; exact Hlt).
    eapply nth_error_In; exact Hi.
Qed.

Lemma deduplicated_nil : deduplicated eq [].
Proof. intros i j y x _ Hi. destruct i; discriminate Hi. Qed.

Lemma deduplicated_snoc (u : list S) (x : S) :
  deduplicated eq u -> Forall (answers_false eq x) u -> deduplicated eq (u ++ [x]).
Proof.
  rewrite !deduplicated_split. intros Hu Hx l1 y l2 Hcut.
  destruct (@exists_last _ (y :: l2)) as (l2' & z & Hl2); [discriminate |].
  rewrite Hl2, app_assoc in Hcut.
  apply app_inj_tail in Hcut. destruct Hcut as [Hcut <-].
  destruct l2' as [|y' l2'].
  - injection Hl2 as -> ->. rewrite app_nil_r in Hcut. subst. exact Hx.
  - injection Hl2 as <- Hl2. apply (Hu l1 y l2'). exact Hcut.
Qed.

Lemma merge_from_prefix (states uniqueStates l : list S) :
  outcome (merge_from eq states uniqueStates) = Ok l ->
  exists w, l = uniqueStates ++ w.
Proof.
  revert uniqueStates. induction states as [|state rest IH]; intros u Hl.
  - injection Hl as <-. exists []. symmetry. apply app_nil_r.
  - rewrite merge_from_cons in Hl.
    destruct (outcome (find_equal eq state u)) as [[|]|p]; try discriminate.
    + apply IH; exact Hl.
    + destruct (IH _ Hl) as [w ->]. exists (state :: w).
      rewrite <- app_assoc. reflexivity.
Qed.

(** What [merge] returns is deduplicated when the accumulator it started
    from was. *)
Lemma merge_from_deduplicated (states uniqueStates l : list S) :
  outcome (merge_from eq states uniqueStates) = Ok l ->
  deduplicated eq uniqueStates ->
  deduplicated eq l.
Proof.
  revert uniqueStates. induction states as [|state rest IH]; intros u Hl Hu.
  - injection Hl as <-. exact Hu.
  - rewrite merge_from_cons in Hl.
    destruct (outcome (find_equal eq state u)) as [[|]|p] eqn:E; try discriminate.
    + apply (IH _ Hl Hu).
    + apply (IH _ Hl).
      apply deduplicated_snoc; [exact Hu | apply find_equal_false; exact E].
Qed.

(** On a deduplicated list [merge] changes nothing. *)
Lemma merge_from_fixpoint (states uniqueStates : list S) :
  deduplicated eq (uniqueStates ++ states) ->
  outcome (merge_from eq states uniqueStates) = Ok (uniqueStates ++ states).
Proof.
  revert uniqueStates. induction states as [|state rest IH]; intros u Hd.
  - simpl. rewrite app_nil_r. reflexivity.
  - rewrite merge_from_cons.
    assert (E : outcome (find_equal eq state u) = Ok false).
    { apply find_equal_false.
      apply (proj1 (deduplicated_split _) Hd u state rest eq_refl). }
    rewrite E.
    replace (u ++ state :: rest) with ((u ++ [state]) ++ rest) in *
      by (rewrite <- app_assoc; reflexivity).
    apply IH. exact Hd.
Qed.

Lemma merge_deduplicated (states l : list S) :
  outcome (merge states eq) = Ok l -> deduplicated eq l.
Proof.
  intros Hl. apply (merge_from_deduplicated _ _ _ Hl), deduplicated_nil.
Qed.

Lemma merge_idempotent (states l : list S) :
  outcome (merge states eq) = Ok l -> outcome (merge l eq) = Ok l.
Proof.
  intros Hl. apply (merge_from_fixpoint l []). simpl.
  apply merge_deduplicated with (1 := Hl).
Qed.

(** Every input of [merge] is [eq]-equal to an element of the output, when
    [eq] is reflexive. *)
Lemma merge_from_covers (states uniqueStates l : list S) :
  (forall x, answers_true eq x x) ->
  outcome (merge_from eq states uniqueStates) = Ok l ->
  forall x, In x states -> exists y, In y l /\ answers_true eq x y.
Proof.
  intros Hrefl. revert uniqueStates.
  induction states as [|state rest IH]; intros u Hl x Hx; [destruct Hx |].
  pose proof Hl as Hl'. rewrite merge_from_cons in Hl'.
  destruct (outcome (find_equal eq state u)) as [[|]|p] eqn:E; try discriminate.
  - destruct Hx as [<- | Hx]; [| apply (IH _ Hl' _ Hx)].
    destruct (find_equal_true _ _ E) as [y [Hy Hxy]].
    exists y. split; [| exact Hxy].
    destruct (merge_from_prefix _ _ _ Hl') as [w ->].
    apply in_or_app. left. exact Hy.
  - destruct Hx as [<- | Hx]; [| apply (IH _ Hl' _ Hx)].
    exists state. split; [| apply Hrefl].
    destruct (merge_from_prefix _ _ _ Hl') as [w ->].
    apply in_or_app. left. apply in_or_app. right. left. reflexivity.
Qed.

(** A total [eq] makes [merge] total. *)
Lemma merge_from_total (f : S -> S -> bool) (states uniqueStates : list S) :
  computes eq f ->
  exists l, outcome (merge_from eq states uniqueStates) = Ok l.
Proof.
  intros Hf. revert uniqueStates.
  induction states as [|state rest IH]; intros u.
  - exists u. reflexivity.
  - rewrite merge_from_cons, (find_equal_computes f _ _ Hf).
    destruct (existsb (f state) u); apply IH.
Qed.

End MergeFacts.

(** C3.  For every list of states and every equality predicate [eq], that
    is, every func value computing a reflexive, symmetric and transitive
    boolean relation [f]: [merge] returns a list [unique]; merging [unique]
    again returns [unique]; no two elements at distinct positions of [unique]
    are [eq]-equal; and every element of the input is [eq]-equal to the
    element at exactly one position of [unique]. *)
Theorem merge_partitions (S : Type) (eq : option (S -> S -> M bool))
    (f : S -> S -> bool) (states : list S) :
  computes eq f ->
  (forall x, f x x = true) ->
  (forall x y, f x y = true -> f y x = true) ->
  (forall x y z, f x y = true -> f y z = true -> f x z = true) ->
  exists unique,
    outcome (merge states eq) = Ok unique /\
    outcome (merge unique eq) = Ok unique /\
    (forall i j a b,
        i <> j -> nth_error unique i = Some a -> nth_error unique j = Some b ->
        f a b = false) /\
    (forall x,
        In x states ->
        exists k y,
          nth_error unique k = Some y /\ f x y = true /\
          forall k' y',
            nth_error unique k' = Some y' -> f x y' = true -> k' = k).
Proof.
  intros Hf Hrefl Hsym Htrans.
  destruct (merge_from_total S eq f states [] Hf) as [unique Hu].
  fold (merge states eq) in Hu.
  assert (Hfalse : forall x y, answers_false eq x y -> f x y = false).
  { intros x y E. unfold answers_false in E. rewrite Hf in E. congruence. }
  assert (Hdistinct : forall i j a b,
             i <> j -> nth_error unique i = Some a ->
             nth_error unique j = Some b -> f a b = false).
  { intros i j a b Hij Hi Hj.
    pose proof (merge_deduplicated S eq states unique Hu) as Hd.
    destruct (Nat.lt_total i j) as [Hlt | [Heq | Hgt]]; [| contradiction |].
    - destruct (f a b) eqn:E; [| reflexivity].
      rewrite <- (Hfalse _ _ (Hd i j a b Hlt Hi Hj)). symmetry. apply Hsym, E.
    - apply Hfalse, (Hd j i b a Hgt Hj Hi). }
  exists unique. repeat apply conj.
  - exact Hu.
  - apply (merge_idempotent S eq states unique Hu).
  - exact Hdistinct.
  - intros x Hx.
    destruct (merge_from_covers S eq states [] unique) with (x := x)
      as [y [Hy Hxy]]; [| exact Hu | exact Hx |].
    { intros z. unfold answers_true. rewrite Hf, Hrefl. reflexivity. }
    unfold answers_true in Hxy. rewrite Hf in Hxy. injection Hxy as Hxy.
    destruct (In_nth_error _ _ Hy) as [k Hk].
    exists k, y. repeat apply conj; [exact Hk | exact Hxy |].
    intros k' y' Hk' Hxy'.
    destruct (Nat.eq_dec k' k) as [Heq | Hne]; [exact Heq | exfalso].
    pose proof (Hdistinct k' k y' y Hne Hk' Hk) as E.
    rewrite (Htrans y' x y (Hsym _ _ Hxy') Hxy) in E. discriminate E.
Qed.

Lemma merge_partitions_witness :
  exists unique,
    outcome (merge [1; 2; 1; 3; 2]%Z (Some (fun a b => ret (Z.eqb a b)))) = Ok unique /\
    outcome (merge unique (Some (fun a b => ret (Z.eqb a b)))) = Ok unique /\
    (forall i j a b,
        i <> j -> nth_error unique i = Some a -> nth_error unique j = Some b ->
        Z.eqb a b = false) /\
    (forall x,
        In x [1; 2; 1; 3; 2]%Z ->
        exists k y,
          nth_error unique k = Some y /\ Z.eqb x y = true /\
          forall k' y',
            nth_error unique k' = Some y' -> Z.eqb x y' = true -> k' = k).
Proof.
  apply merge_partitions.
  - intros x y. reflexivity.
  - apply Z.eqb_refl.
  - intros x y E. rewrite Z.eqb_sym. exact E.
  - intros x y z E1 E2. apply Z.eqb_eq in E1, E2. apply Z.eqb_eq. congruence.
Defined.

(** Idempotence alone asks nothing of [eq]; the other two parts do: with a
    predicate that is not symmetric, the output can hold two elements the
    predicate relates. *)
Remark merge_with_asymmetric_predicate :
  outcome (merge [1; 2]%Z (Some (fun a b => ret (Z.ltb a b)))) = Ok [1; 2]%Z /\
  Z.ltb 1 2 = true.
Proof. split; reflexivity. Qed.

(** ** The converted model *)

Section ConvertedModel.

Variable Sprintf_v : any -> string.
Variables S I O : gotype.
Variable nm : NondeterministicModel.t (denote S) (denote I) (denote O).

Local Abbreviation converted := (NondeterministicModel.ToModel Sprintf_v S I O nm).
Local Abbreviation equal := (NondeterministicModel.equal S I O nm).
Local Abbreviation collect := (NondeterministicModel.collect S I O nm).
Local Abbreviation included := (NondeterministicModel.included S I O nm).

Lemma converted_Init :
  call0 (Model.Init converted) =
  (states <- call0 (callback0 NmInit (NondeterministicModel.Init nm)) ;;
   merge states (callback2 NmEqual (NondeterministicModel.Equal nm))).
Proof. reflexivity. Qed.

Lemma converted_Step state input output :
  call3 (Model.Step converted) state input output =
  (allNextStates <- collect state input output [] ;;
   uniqueNextStates <- merge allNextStates equal ;;
   ret (0 <? List.length uniqueNextStates, uniqueNextStates)).
Proof. reflexivity. Qed.

Lemma converted_Equal state1 state2 :
  call2 (Model.Equal converted) state1 state2 =
  if negb (List.length state1 =? List.length state2)
  then ret false
  else included state1 state2.
Proof. reflexivity. Qed.

Lemma collect_outcome step states input output allNextStates :
  NondeterministicModel.Step nm = Some step ->
  outcome (collect states input output allNextStates) =
  Ok (allNextStates ++ flat_map (fun state => step state input output) states).
Proof.
  intros Hstep. revert allNextStates.
  induction states as [|state rest IH]; intros acc.
  - simpl. rewrite app_nil_r. reflexivity.
  - simpl NondeterministicModel.collect. rewrite outcome_bind, Hstep.
    change (outcome (call3 (callback3 NmStep (Some step)) state input output))
      with (Ok (step state input output)).
    cbv iota. rewrite IH. simpl flat_map.
    rewrite app_assoc. reflexivity.
Qed.

Lemma equal_with_Equal f :
  NondeterministicModel.Equal nm = Some f -> computes equal f.
Proof.
  intros Hf x y. unfold NondeterministicModel.equal. rewrite Hf. reflexivity.
Qed.

Lemma equal_without_Equal :
  NondeterministicModel.Equal nm = None -> equal = Some (shallowEqual S).
Proof.
  intros Hf. unfold NondeterministicModel.equal. rewrite Hf. reflexivity.
Qed.

End ConvertedModel.



Lemma merge_nil_func (S : Type) (states l : list S) :
  outcome (merge states None) = Ok l -> l = states /\ List.length states <= 1.
Proof.
  destruct states as [|a [|b rest]]; intros Hl.
  - injection Hl as <-. split; [reflexivity | apply Nat.le_0_l].
  - injection Hl as <-. split; [reflexivity | apply Nat.le_refl].
  - discriminate Hl.
Qed.

Lemma deduplicated_short (S : Type) (eq : option (S -> S -> M bool)) (l : list S) :
  List.length l <= 1 -> deduplicated eq l.
Proof.
  intros Hlen i j y x Hlt _ Hj.
  assert (j < List.length l) by (apply nth_error_Some; congruence). lia.
Qed.

(** An equality that, for a given left operand, either always answers or
    never answers true, is found by the early-exit search whenever some
    element is equal. *)
Lemma find_equal_true_intro (S : Type) (eq : option (S -> S -> M bool))
    (state : S) (others : list S) :
  (forall y, exists b, outcome (call2 eq state y) = Ok b) \/
  (forall y, ~ answers_true eq state y) ->
  (exists us, In us others /\ answers_true eq state us) ->
  outcome (find_equal eq state others) = Ok true.
Proof.
  intros Hdich [y [Hin Hy]].
  induction others as [|us rest IH]; [destruct Hin |].
  rewrite find_equal_cons.
  destruct (outcome (call2 eq state us)) as [[|]|p] eqn:E; [reflexivity | |].
  - destruct Hin as [-> | Hin]; [| apply IH; exact Hin].
    unfold answers_true in Hy. congruence.
  - exfalso. destruct Hdich as [Htotal | Hnever].
    + destruct (Htotal us) as [b Hb]. congruence.
    + apply (Hnever y Hy).
Qed.

Lemma any_eq_dichotomy (x : any) :
  (forall y, exists b, outcome (any_eq x y) = Ok b) \/
  (forall y, outcome (any_eq x y) <> Ok true).
Proof.
  destruct x as [|t v].
  - left. intros [|u w]; eexists; reflexivity.
  - destruct (comparable t) eqn:Ht.
    + left. intros [|u w]; simpl; [eexists; reflexivity |].
      destruct (ctype_eq_dec u t); [rewrite Ht |]; eexists; reflexivity.
    + right. intros [|u w]; simpl; [discriminate |].
      destruct (ctype_eq_dec u t); [rewrite Ht |]; discriminate.
Qed.

Section ConvertedModelClaims.

Variable Sprintf_v : any -> string.
Variables S I O : gotype.
Variable nm : NondeterministicModel.t (denote S) (denote I) (denote O).

Local Abbreviation converted := (NondeterministicModel.ToModel Sprintf_v S I O nm).
Local Abbreviation equal := (NondeterministicModel.equal S I O nm).
Local Abbreviation included := (NondeterministicModel.included S I O nm).

(** C10.  On the empty state-set the [Step] of [nm.ToModel()] returns
    success = false and an empty state-set, whatever the input, the output
    and the model (its [Step] and [Equal] may even be nil), and runs no
    callback of the model. *)
Theorem converted_Step_empty input output :
  outcome (call3 (Model.Step converted) [] input output) = Ok (false, []) /\
  calls (call3 (Model.Step converted) [] input output) = [].
Proof. split; reflexivity. Qed.

Lemma equal_dichotomy state :
  (forall y, exists b, outcome (call2 equal state y) = Ok b) \/
  (forall y, ~ answers_true equal state y).
Proof.
  destruct (NondeterministicModel.Equal nm) as [f|] eqn:Hf.
  - left. intros y. exists (f state y). apply (equal_with_Equal S I O nm f Hf).
  - rewrite (equal_without_Equal S I O nm Hf). unfold answers_true. simpl.
    unfold shallowEqual.
    destruct (any_eq_dichotomy (box S state)) as [H | H];
      [left | right]; intros y; apply H.
Qed.

Lemma included_true state1 state2 :
  outcome (included state1 state2) = Ok true <->
  forall s1, In s1 state1 -> outcome (find_equal equal s1 state2) = Ok true.
Proof.
  induction state1 as [|s rest IH].
  - split; [intros _ s1 [] | reflexivity].
  - simpl NondeterministicModel.included. rewrite outcome_bind.
    destruct (outcome (find_equal equal s state2)) as [[|]|p] eqn:E.
    + rewrite IH. split.
      * intros H s1 [<- | Hin]; [exact E | apply H; exact Hin].
      * intros H s1 Hin. apply H. right. exact Hin.
    + split; [discriminate |]. intros H.
      specialize (H s (or_introl eq_refl)). congruence.
    + split; [discriminate |]. intros H.
      specialize (H s (or_introl eq_refl)). congruence.
Qed.

(** C4.  The [Equal] of [nm.ToModel()] returns true on two state-sets if
    and only if they have the same length and every element of the first is
    equal, under [nm.Equal] or under the shallow fallback when [nm.Equal] is
    nil, to some element of the second.  Nothing is asked of the elements of
    the second state-set. *)
Theorem converted_Equal_inclusion state1 state2 :
  outcome (call2 (Model.Equal converted) state1 state2) = Ok true <->
  List.length state1 = List.length state2 /\
  forall s1, In s1 state1 -> exists s2, In s2 state2 /\ answers_true equal s1 s2.
Proof.
  rewrite converted_Equal.
  destruct (Nat.eqb_spec (List.length state1) (List.length state2)) as [Hlen | Hlen];
    simpl negb; cbv iota.
  - rewrite included_true. split.
    + intros H. split; [exact Hlen |]. intros s1 Hin.
      apply find_equal_true, H, Hin.
    + intros [_ H] s1 Hin.
      apply find_equal_true_intro; [apply equal_dichotomy | apply H, Hin].
  - split; [discriminate | intros [H _]; contradiction].
Qed.

(** With a total equality the converted [Equal] is total as well. *)
Lemma converted_Equal_computes f state1 state2 :
  computes equal f ->
  outcome (call2 (Model.Equal converted) state1 state2) =
  Ok ((List.length state1 =? List.length state2) &&
      forallb (fun s1 => existsb (f s1) state2) state1).
Proof.
  intros Hf. rewrite converted_Equal.
  destruct (List.length state1 =? List.length state2); simpl; [| reflexivity].
  induction state1 as [|s rest IH]; [reflexivity |].
  simpl NondeterministicModel.included.
  rewrite outcome_bind, (find_equal_computes _ equal f s state2 Hf). simpl.
  destruct (existsb (f s) state2); [exact IH | reflexivity].
Qed.

End ConvertedModelClaims.

Section ProducedStateSets.

Variable Sprintf_v : any -> string.
Variables S I O : gotype.
Variable nm : NondeterministicModel.t (denote S) (denote I) (denote O).

Local Abbreviation converted := (NondeterministicModel.ToModel Sprintf_v S I O nm).
Local Abbreviation equal := (NondeterministicModel.equal S I O nm).

(** With an [Equal] supplied by the caller, [Init] deduplicates the initial
    states with it. *)
Lemma converted_Init_with_Equal init f :
  NondeterministicModel.Init nm = Some init ->
  NondeterministicModel.Equal nm = Some f ->
  outcome (call0 (Model.Init converted)) = outcome (merge (init tt) equal).
Proof.
  intros Hinit Hf. rewrite converted_Init, outcome_bind.
  unfold NondeterministicModel.equal. rewrite Hinit, Hf. reflexivity.
Qed.

(** Without one, [Init] hands the nil func to [merge]: it returns the
    initial states untouched when there is at most one, and panics on the
    first comparison otherwise. *)
Lemma converted_Init_without_Equal init :
  NondeterministicModel.Init nm = Some init ->
  NondeterministicModel.Equal nm = None ->
  outcome (call0 (Model.Init converted)) =
  if List.length (init tt) <=? 1 then Ok (init tt) else Panic NilFuncCall.
Proof.
  intros Hinit Hf. rewrite converted_Init, outcome_bind. rewrite Hinit, Hf.
  change (outcome (call0 (callback0 NmInit (Some init)))) with (Ok (init tt)).
  cbv iota. destruct (init tt) as [|a [|b rest]]; reflexivity.
Qed.

Lemma converted_Init_deduplicated l :
  outcome (call0 (Model.Init converted)) = Ok l -> deduplicated equal l.
Proof.
  rewrite converted_Init, outcome_bind.
  destruct (outcome (call0 (callback0 NmInit (NondeterministicModel.Init nm))))
    as [states|p]; [| discriminate].
  unfold NondeterministicModel.equal.
  destruct (NondeterministicModel.Equal nm) as [f|]; intros Hl.
  - apply (merge_deduplicated _ _ states l Hl).
  - apply deduplicated_short.
    destruct (merge_nil_func _ states l Hl) as [-> Hlen]. exact Hlen.
Qed.

Lemma converted_Step_deduplicated state input output ok l :
  outcome (call3 (Model.Step converted) state input output) = Ok (ok, l) ->
  deduplicated equal l.
Proof.
  rewrite converted_Step, outcome_bind.
  destruct (outcome (NondeterministicModel.collect S I O nm state input output []))
    as [allNextStates|p]; [| discriminate].
  rewrite outcome_bind.
  destruct (outcome (merge allNextStates equal)) as [unique|p] eqn:E;
    [| discriminate].
  intros Hl. injection Hl as _ <-.
  apply (merge_deduplicated _ _ allNextStates unique E).
Qed.

Lemma reachable_produced l :
  reachable Sprintf_v S I O nm l -> produced Sprintf_v S I O nm l.
Proof.
  intros [l' Hl | state input output l' _ Hl].
  - apply produced_Init, Hl.
  - apply (@produced_Step Sprintf_v S I O nm state input output true l' Hl).
Qed.

(** C9.  Every state-set the converted model produces, by its [Init] or
    as the state-set of a [Step] result on any arguments, has no element
    that is equal (under [nm.Equal], or the shallow fallback when that is
    nil) to an earlier element, and is what [merge] returns on some list; in
    particular this holds of every state-set reachable from [Init] by
    successful steps. *)
Theorem produced_deduplicated :
  (forall l,
      produced Sprintf_v S I O nm l ->
      deduplicated equal l /\
      exists states, outcome (merge states equal) = Ok l) /\
  (forall l,
      reachable Sprintf_v S I O nm l ->
      deduplicated equal l /\
      exists states, outcome (merge states equal) = Ok l).
Proof.
  assert (Hproduced : forall l,
             produced Sprintf_v S I O nm l ->
             deduplicated equal l /\
             exists states, outcome (merge states equal) = Ok l).
  { intros l Hl.
    assert (Hd : deduplicated equal l).
    { destruct Hl as [l Hl | state input output ok l Hl].
      - apply converted_Init_deduplicated, Hl.
      - apply (converted_Step_deduplicated state input output ok l Hl). }
    split; [exact Hd |]. exists l.
    apply (merge_from_fixpoint _ equal l []). exact Hd. }
  split; [exact Hproduced |].
  intros l Hl. apply Hproduced, reachable_produced, Hl.
Qed.

End ProducedStateSets.

(** The scenario of the specification: writing 1 from the state-set {0}
    gives {0, 1}; reading 0 from {0, 1} succeeds and leaves {0}; both with
    the shallow fallback as equality. *)
Example register_scenario :
  outcome (call3 (Model.Step
                    (NondeterministicModel.ToModel (fun _ => EmptyString)
                       (Conc TInt) (Conc TString) (Conc TInt)
                       (register None [0%Z])))
             [0%Z] "write1"%string 0%Z) = Ok (true, [0; 1]%Z) /\
  outcome (call3 (Model.Step
                    (NondeterministicModel.ToModel (fun _ => EmptyString)
                       (Conc TInt) (Conc TString) (Conc TInt)
                       (register None [0%Z])))
             [0; 1]%Z "read"%string 0%Z) = Ok (true, [0%Z]) /\
  outcome (call3 (Model.Step
                    (NondeterministicModel.ToModel (fun _ => EmptyString)
                       (Conc TInt) (Conc TString) (Conc TInt)
                       (register None [0%Z])))
             [1%Z] "read"%string 0%Z) = Ok (false, []).
Proof. repeat split. Qed.

(** The converted [Equal] tests one direction only: on state-sets that are
    not deduplicated it can hold one way and fail the other way. *)
Example converted_Equal_one_direction :
  outcome (call2 (Model.Equal
                    (NondeterministicModel.ToModel (fun _ => EmptyString)
                       (Conc TInt) (Conc TString) (Conc TInt)
                       (register (Some Z.eqb) [0%Z])))
             [0; 0]%Z [0; 1]%Z) = Ok true /\
  outcome (call2 (Model.Equal
                    (NondeterministicModel.ToModel (fun _ => EmptyString)
                       (Conc TInt) (Conc TString) (Conc TInt)
                       (register (Some Z.eqb) [0%Z])))
             [0; 1]%Z [0; 0]%Z) = Ok false.
Proof. split; reflexivity. Qed.

Lemma produced_deduplicated_witness :
  deduplicated
    (NondeterministicModel.equal (Conc TInt) (Conc TString) (Conc TInt)
       (register (Some Z.eqb) [0; 0]%Z))
    [0; 1]%Z /\
  deduplicated
    (NondeterministicModel.equal (Conc TInt) (Conc TString) (Conc TInt)
       (register (Some Z.eqb) [0; 0]%Z))
    [0%Z].
Proof.
  destruct (produced_deduplicated (fun _ => EmptyString)
              (Conc TInt) (Conc TString) (Conc TInt)
              (register (Some Z.eqb) [0; 0]%Z)) as [Hproduced Hreachable].
  split.
  - apply Hproduced.
    apply (@produced_Step (fun _ => EmptyString) (Conc TInt) (Conc TString)
             (Conc TInt) (register (Some Z.eqb) [0; 0]%Z)
             [0%Z] "write1"%string 0%Z true [0; 1]%Z eq_refl).
  - apply Hreachable.
    apply (@reachable_Init (fun _ => EmptyString) (Conc TInt) (Conc TString)
             (Conc TInt) (register (Some Z.eqb) [0; 0]%Z) [0%Z] eq_refl).
Defined.

(** C2, on the code.  A model without [Equal] and with the two initial
    states 0 and 1: the [Init] of its [ToModel()] panics with a call of the
    nil func, because it hands [nm.Equal] to [merge] and not the local
    [equal] that holds the fallback; [merge] with that [equal], as [Step]
    calls it, returns the two states. *)
Theorem converted_Init_nil_Equal_panics (Sprintf_v : any -> string) :
  outcome (call0 (Model.Init
                    (NondeterministicModel.ToModel Sprintf_v
                       (Conc TInt) (Conc TString) (Conc TInt)
                       (register None [0; 1]%Z))))
  = Panic NilFuncCall /\
  outcome (merge [0; 1]%Z
             (NondeterministicModel.equal (Conc TInt) (Conc TString) (Conc TInt)
                (register None [0; 1]%Z)))
  = Ok [0; 1]%Z.
Proof. split; reflexivity. Qed.

(* ================================================================== *)
(** * Further properties *)

(** ** [merge] *)

Section MergeMore.

Variable S : Type.
Variable eq : option (S -> S -> M bool).

Lemma merge_from_subsequence (states uniqueStates l : list S) :
  outcome (merge_from eq states uniqueStates) = Ok l ->
  exists w, l = uniqueStates ++ w /\ subsequence w states.
Proof.
  revert uniqueStates. induction states as [|state rest IH]; intros u Hl.
  - injection Hl as <-. exists []. split; [symmetry; apply app_nil_r | constructor].
  - rewrite merge_from_cons in Hl.
    destruct (outcome (find_equal eq state u)) as [[|]|p]; try discriminate.
    + destruct (IH _ Hl) as [w [-> Hw]]. exists w.
      split; [reflexivity | constructor; exact Hw].
    + destruct (IH _ Hl) as [w [-> Hw]]. exists (state :: w).
      split; [rewrite <- app_assoc; reflexivity | constructor; exact Hw].
Qed.

Lemma subsequence_In (l1 l2 : list S) (x : S) :
  subsequence l1 l2 -> In x l1 -> In x l2.
Proof.
  induction 1 as [|y l1 l2 _ IH|y l1 l2 _ IH]; intros Hx.
  - exact Hx.
  - destruct Hx as [-> | Hx]; [left; reflexivity | right; apply IH, Hx].
  - right. apply IH, Hx.
Qed.

Lemma subsequence_length (l1 l2 : list S) :
  subsequence l1 l2 -> List.length l1 <= List.length l2.
Proof. induction 1; simpl; lia. Qed.

(** X1.  What [merge] returns is a subsequence of its input: it holds only
    input states, in input order, and starts with the first input state.
    With a total [eq], [merge] returns. *)
Theorem merge_subsequence (states : list S) :
  (forall l,
      outcome (merge states eq) = Ok l ->
      subsequence l states /\ hd_error l = hd_error states) /\
  (forall f, computes eq f -> exists l, outcome (merge states eq) = Ok l).
Proof.
  split.
  - intros l Hl. split.
    + destruct (merge_from_subsequence states [] l Hl) as [w [-> Hw]]. exact Hw.
    + destruct states as [|state rest]; [injection Hl as <-; reflexivity |].
      unfold merge in Hl. rewrite merge_from_cons in Hl. simpl in Hl.
      destruct (merge_from_prefix S eq rest [state] l Hl) as [w ->]. reflexivity.
  - intros f Hf. apply (merge_from_total S eq f states [] Hf).
Qed.

(** X2.  [merge] with the nil func as [eq] returns its input when that has
    at most one state, and panics on the first comparison otherwise. *)
Theorem merge_nil_eq (states : list S) :
  outcome (merge states None) =
  if List.length states <=? 1 then Ok states else Panic NilFuncCall.
Proof. destruct states as [|a [|b rest]]; reflexivity. Qed.

Lemma find_equal_calls (state : S) (others : list S) :
  counted_eq eq ->
  exists k, calls (find_equal eq state others) = repeat NmEqual k /\
            k <= List.length others.
Proof.
  intros Hc. induction others as [|us rest [k [Hk Hle]]].
  - exists 0. split; [reflexivity | apply Nat.le_refl].
  - simpl find_equal. rewrite calls_bind.
    destruct (Hc state us) as [E | E]; rewrite E;
      destruct (outcome (call2 eq state us)) as [[|]|p]; simpl.
    + exists 0. split; [reflexivity | lia].
    + exists k. split; [exact Hk | lia].
    + exists 0. split; [reflexivity | lia].
    + exists 1. split; [reflexivity | lia].
    + exists (Datatypes.S k). split; [rewrite Hk; reflexivity | lia].
    + exists 1. split; [reflexivity | lia].
Qed.

Lemma merge_from_calls (states uniqueStates : list S) :
  counted_eq eq ->
  exists k, calls (merge_from eq states uniqueStates) = repeat NmEqual k /\
            2 * k + List.length states <=
            2 * List.length states * List.length uniqueStates +
            List.length states * List.length states.
Proof.
  intros Hc. revert uniqueStates.
  induction states as [|state rest IH]; intros u.
  - exists 0. split; [reflexivity | simpl; lia].
  - simpl merge_from. rewrite calls_bind.
    destruct (find_equal_calls state u Hc) as [k1 [Hk1 Hle1]]. rewrite Hk1.
    destruct (outcome (find_equal eq state u)) as [[|]|p].
    + destruct (IH u) as [k2 [Hk2 Hle2]]. exists (k1 + k2).
      split; [rewrite Hk2, repeat_app; reflexivity | simpl List.length; nia].
    + destruct (IH (u ++ [state])) as [k2 [Hk2 Hle2]]. exists (k1 + k2).
      split; [rewrite Hk2, repeat_app; reflexivity |].
      rewrite length_app in Hle2. simpl List.length in *. nia.
    + exists k1. split; [rewrite app_nil_r; reflexivity | simpl List.length; nia].
Qed.

End MergeMore.

(** X3.  [merge] with a caller's equality runs that equality and nothing
    else, at most n(n-1)/2 times on n states. *)
Theorem merge_Equal_calls (S : Type) (f : S -> S -> bool) (states : list S) :
  exists k,
    calls (merge states (callback2 NmEqual (Some f))) = repeat NmEqual k /\
    2 * k + List.length states <= List.length states * List.length states.
Proof.
  destruct (merge_from_calls S (callback2 NmEqual (Some f)) states [])
    as [k [Hk Hle]].
  - intros a b. right. reflexivity.
  - exists k. split; [exact Hk |]. simpl List.length in Hle. nia.
Qed.

Lemma merge_subsequence_witness :
  subsequence [1; 2]%Z [1; 2; 1]%Z /\
  hd_error [1; 2]%Z = hd_error [1; 2; 1]%Z.
Proof.
  destruct (merge_subsequence Z (Some (fun a b => ret (Z.eqb a b))) [1; 2; 1]%Z)
    as [Hsub _].
  apply (Hsub [1; 2]%Z eq_refl).
Defined.

(** ** The converted [Step] *)

Section ConvertedStepMore.

Variable Sprintf_v : any -> string.
Variables S I O : gotype.
Variable nm : NondeterministicModel.t (denote S) (denote I) (denote O).

Local Abbreviation converted := (NondeterministicModel.ToModel Sprintf_v S I O nm).
Local Abbreviation equal := (NondeterministicModel.equal S I O nm).
Local Abbreviation collect := (NondeterministicModel.collect S I O nm).

Lemma equal_counted : counted_eq equal.
Proof.
  intros a b. unfold NondeterministicModel.equal.
  destruct (NondeterministicModel.Equal nm) as [f|].
  - right. reflexivity.
  - left. simpl. unfold shallowEqual.
    destruct (box S a) as [|t v], (box S b) as [|u w]; try reflexivity.
    simpl. destruct (ctype_eq_dec u t); [destruct (comparable t) |]; reflexivity.
Qed.

Lemma shallow_quiet (a b : denote S) :
  calls (call2 (Some (shallowEqual S)) a b) = [].
Proof.
  simpl. unfold shallowEqual.
  destruct (box S a) as [|t v], (box S b) as [|u w]; try reflexivity.
  simpl. destruct (ctype_eq_dec u t); [destruct (comparable t) |]; reflexivity.
Qed.

Lemma find_equal_quiet (eq : option (denote S -> denote S -> M bool)) state others :
  (forall a b, calls (call2 eq a b) = []) ->
  calls (find_equal eq state others) = [].
Proof.
  intros Hq. induction others as [|us rest IH]; [reflexivity |].
  simpl find_equal. rewrite calls_bind, Hq.
  destruct (outcome (call2 eq state us)) as [[|]|p]; [reflexivity | exact IH | reflexivity].
Qed.

Lemma merge_from_quiet (eq : option (denote S -> denote S -> M bool)) states u :
  (forall a b, calls (call2 eq a b) = []) ->
  calls (merge_from eq states u) = [].
Proof.
  intros Hq. revert u. induction states as [|state rest IH]; intros u; [reflexivity |].
  simpl merge_from. rewrite calls_bind, (find_equal_quiet eq state u Hq).
  destruct (outcome (find_equal eq state u)) as [[|]|p]; [apply IH | apply IH | reflexivity].
Qed.

Lemma collect_calls step states input output allNextStates :
  NondeterministicModel.Step nm = Some step ->
  calls (collect states input output allNextStates) =
  repeat NmStep (List.length states).
Proof.
  intros Hstep. revert allNextStates.
  induction states as [|state rest IH]; intros acc; [reflexivity |].
  simpl NondeterministicModel.collect. rewrite calls_bind, Hstep.
  change (outcome (call3 (callback3 NmStep (Some step)) state input output))
    with (Ok (step state input output)).
  cbv iota. rewrite IH. reflexivity.
Qed.

(** X4.  The converted [Step] runs [nm.Step] exactly once for each element
    of the state-set, then only [nm.Equal]: at most m(m-1)/2 times for a
    union of m states, and not at all when [nm.Equal] is nil. *)
Theorem converted_Step_calls step state input output :
  NondeterministicModel.Step nm = Some step ->
  exists k,
    calls (call3 (Model.Step converted) state input output) =
    repeat NmStep (List.length state) ++ repeat NmEqual k /\
    2 * k + List.length (flat_map (fun s => step s input output) state) <=
    List.length (flat_map (fun s => step s input output) state) *
    List.length (flat_map (fun s => step s input output) state) /\
    (NondeterministicModel.Equal nm = None -> k = 0).
Proof.
  intros Hstep.
  set (union := flat_map (fun s => step s input output) state).
  rewrite converted_Step, calls_bind.
  rewrite (collect_calls step state input output [] Hstep).
  rewrite (collect_outcome S I O nm step state input output [] Hstep).
  simpl app. fold union. rewrite calls_bind.
  destruct (merge_from_calls _ equal union [] equal_counted) as [k [Hk Hle]].
  fold (merge union equal) in Hk.
  assert (Hrest :
    calls (merge union equal) ++
    match outcome (merge union equal) with
    | Ok a => calls (ret (0 <? List.length a, a))
    | Panic _ => []
    end = calls (merge union equal)).
  { destruct (outcome (merge union equal)); apply app_nil_r. }
  rewrite Hrest.
  destruct (NondeterministicModel.Equal nm) as [f|] eqn:Hf.
  - exists k. split; [rewrite Hk; reflexivity |].
    split; [simpl List.length in Hle; nia | discriminate].
  - exists 0. split; [| split; [nia | reflexivity]].
    unfold merge. rewrite (equal_without_Equal S I O nm Hf).
    rewrite (merge_from_quiet _ union [] shallow_quiet). reflexivity.
Qed.

(** X5.  When the converted [Step] returns, the state-set it returns is a
    subsequence of the concatenated results of [nm.Step]: each of its states
    is a result of [nm.Step] on some element of the current state-set.  With
    a reflexive equality every such result is equal to a state of the
    returned state-set. *)
Theorem converted_Step_sound_complete step state input output ok next :
  NondeterministicModel.Step nm = Some step ->
  outcome (call3 (Model.Step converted) state input output) = Ok (ok, next) ->
  subsequence next (flat_map (fun s => step s input output) state) /\
  (forall y, In y next -> exists s, In s state /\ In y (step s input output)) /\
  ((forall x, answers_true equal x x) ->
   forall s y,
     In s state -> In y (step s input output) ->
     exists y', In y' next /\ answers_true equal y y').
Proof.
  intros Hstep. rewrite converted_Step, outcome_bind.
  rewrite (collect_outcome S I O nm step state input output [] Hstep).
  simpl app. rewrite outcome_bind.
  destruct (outcome (merge (flat_map (fun s => step s input output) state) equal))
    as [unique|p] eqn:E; [| discriminate].
  intros Hr. injection Hr as _ <-.
  destruct (merge_from_subsequence _ equal _ [] unique E) as [w [-> Hw]].
  simpl app in *.
  split; [exact Hw | split].
  - intros y Hy. apply in_flat_map. apply (subsequence_In _ _ _ y Hw Hy).
  - intros Hrefl s y Hs Hy.
    apply (merge_from_covers _ equal _ [] w Hrefl E).
    apply in_flat_map. exists s. split; assumption.
Qed.

(** X6.  Without [nm.Step] the converted [Step] panics, before any callback,
    on every non-empty state-set; without [nm.Init] the converted [Init]
    panics. *)
Theorem converted_nil_callbacks_panic :
  (NondeterministicModel.Step nm = None ->
   forall state input output,
     state <> [] ->
     call3 (Model.Step converted) state input output = raise NilFuncCall) /\
  (NondeterministicModel.Init nm = None ->
   call0 (Model.Init converted) = raise NilFuncCall).
Proof.
  split.
  - intros Hstep [|s rest] input output Hne; [contradiction |].
    rewrite converted_Step. simpl NondeterministicModel.collect.
    rewrite Hstep. reflexivity.
  - intros Hinit. rewrite converted_Init, Hinit. reflexivity.
Qed.

End ConvertedStepMore.

(** ** State-sets as sets *)

Section Pigeonhole.

Variable S : Type.
Variable f : S -> S -> bool.
Hypothesis f_sym : forall x y, f x y = true -> f y x = true.
Hypothesis f_trans : forall x y z, f x y = true -> f y z = true -> f x z = true.

(** Pairwise unequal elements that each have an equal in [l2] need at least
    as many elements in [l2]; when [l2] has no more, each of its elements is
    taken. *)
Lemma covering_pigeonhole (l1 : list S) :
  forall l2,
    ForallOrdPairs (fun a b => f b a = false) l1 ->
    (forall a, In a l1 -> exists b, In b l2 /\ f a b = true) ->
    List.length l1 <= List.length l2 /\
    (List.length l2 <= List.length l1 ->
     forall b, In b l2 -> exists a, In a l1 /\ f a b = true).
Proof.
  induction l1 as [|a l1 IH]; intros l2 Hd Hcov.
  - split; [apply Nat.le_0_l |]. intros Hlen b Hb.
    destruct l2; [destruct Hb | simpl in Hlen; lia].
  - inversion Hd as [|? ? Ha Hd']; subst.
    destruct (Hcov a (or_introl eq_refl)) as [b [Hb Hab]].
    destruct (in_split _ _ Hb) as [l2a [l2b ->]].
    assert (Hcov' : forall a', In a' l1 ->
                               exists b', In b' (l2a ++ l2b) /\ f a' b' = true).
    { intros a' Ha'. destruct (Hcov a' (or_intror Ha')) as [b' [Hb' Hab']].
      apply in_app_or in Hb'. destruct Hb' as [Hb' | [<- | Hb']].
      - exists b'. split; [apply in_or_app; left; exact Hb' | exact Hab'].
      - exfalso. rewrite Forall_forall in Ha. specialize (Ha a' Ha').
        rewrite (f_trans a' b a Hab' (f_sym _ _ Hab)) in Ha. discriminate Ha.
      - exists b'. split; [apply in_or_app; right; exact Hb' | exact Hab']. }
    destruct (IH (l2a ++ l2b) Hd' Hcov') as [Hle Hsurj].
    rewrite !length_app in *. simpl List.length in *. split; [lia |].
    intros Hlen b0 Hb0. apply in_app_or in Hb0.
    destruct Hb0 as [Hb0 | [<- | Hb0]].
    + destruct (Hsurj ltac:(lia) b0 (in_or_app _ _ _ (or_introl Hb0)))
        as [a0 [Ha0 H0]].
      exists a0. split; [right; exact Ha0 | exact H0].
    + exists a. split; [left; reflexivity | exact Hab].
    + destruct (Hsurj ltac:(lia) b0 (in_or_app _ _ _ (or_intror Hb0)))
        as [a0 [Ha0 H0]].
      exists a0. split; [right; exact Ha0 | exact H0].
Qed.

Lemma deduplicated_pairs (eq : option (S -> S -> M bool)) (l : list S) :
  computes eq f -> deduplicated eq l ->
  ForallOrdPairs (fun a b => f b a = false) l.
Proof.
  intros Hf. induction l as [|a l IH]; intros Hd; constructor.
  - apply Forall_forall. intros b Hb.
    destruct (In_nth_error _ _ Hb) as [i Hi].
    pose proof (Hd 0 (Datatypes.S i) a b (Nat.lt_0_succ i) eq_refl Hi) as E.
    unfold answers_false in E. rewrite Hf in E. congruence.
  - apply IH. intros i j y x Hlt Hi Hj.
    apply (Hd (Datatypes.S i) (Datatypes.S j) y x); [lia | exact Hi | exact Hj].
Qed.

End Pigeonhole.

Section StateSetEquality.

Variable Sprintf_v : any -> string.
Variables S I O : gotype.
Variable nm : NondeterministicModel.t (denote S) (denote I) (denote O).
Variable f : denote S -> denote S -> bool.
Hypothesis Equal_f : NondeterministicModel.Equal nm = Some f.
Hypothesis f_refl : forall x, f x x = true.
Hypothesis f_sym : forall x y, f x y = true -> f y x = true.
Hypothesis f_trans : forall x y z, f x y = true -> f y z = true -> f x z = true.

Local Abbreviation converted := (NondeterministicModel.ToModel Sprintf_v S I O nm).
Local Abbreviation equal := (NondeterministicModel.equal S I O nm).
Local Abbreviation EQ := (call2 (Model.Equal converted)).

Lemma converted_Equal_true state1 state2 :
  outcome (EQ state1 state2) = Ok true <->
  List.length state1 = List.length state2 /\
  forall s1, In s1 state1 -> exists s2, In s2 state2 /\ f s1 s2 = true.
Proof.
  rewrite (converted_Equal_computes Sprintf_v S I O nm f state1 state2
             (equal_with_Equal S I O nm f Equal_f)).
  split.
  - intros H. injection H as H. apply andb_true_iff in H. destruct H as [Hlen Hall].
    split; [apply Nat.eqb_eq, Hlen |]. intros s1 Hs1.
    rewrite forallb_forall in Hall. apply existsb_exists, Hall, Hs1.
  - intros [Hlen Hall]. f_equal. apply andb_true_iff.
    split; [apply Nat.eqb_eq, Hlen |].
    apply forallb_forall. intros s1 Hs1. apply existsb_exists, Hall, Hs1.
Qed.

Lemma converted_Equal_sym state1 state2 :
  deduplicated equal state1 ->
  outcome (EQ state1 state2) = Ok true ->
  outcome (EQ state2 state1) = Ok true.
Proof.
  intros Hd. rewrite !converted_Equal_true. intros [Hlen Hall].
  split; [symmetry; exact Hlen |]. intros s2 Hs2.
  destruct (covering_pigeonhole _ f f_sym f_trans state1 state2) as [_ Hsurj].
  - apply (deduplicated_pairs _ f equal state1
             (equal_with_Equal S I O nm f Equal_f) Hd).
  - exact Hall.
  - destruct (Hsurj ltac:(lia) s2 Hs2) as [s1 [Hs1 H12]].
    exists s1. split; [exact Hs1 | apply f_sym, H12].
Qed.

(** X7.  With an [Equal] that is reflexive, symmetric and transitive, the
    [Equal] of the converted model is reflexive and transitive on all
    state-sets, and symmetric as soon as its first argument is deduplicated:
    the inclusion the code does not test then follows from the one it
    tests. *)
Theorem converted_Equal_equivalence :
  (forall state, outcome (EQ state state) = Ok true) /\
  (forall state1 state2,
      deduplicated equal state1 ->
      outcome (EQ state1 state2) = Ok true ->
      outcome (EQ state2 state1) = Ok true) /\
  (forall state1 state2 state3,
      outcome (EQ state1 state2) = Ok true ->
      outcome (EQ state2 state3) = Ok true ->
      outcome (EQ state1 state3) = Ok true).
Proof.
  split; [| split].
  - intros state. apply converted_Equal_true. split; [reflexivity |].
    intros s Hs. exists s. split; [exact Hs | apply f_refl].
  - apply converted_Equal_sym.
  - intros state1 state2 state3. rewrite !converted_Equal_true.
    intros [Hlen12 H12] [Hlen23 H23]. split; [congruence |].
    intros s1 Hs1. destruct (H12 s1 Hs1) as [s2 [Hs2 E12]].
    destruct (H23 s2 Hs2) as [s3 [Hs3 E23]].
    exists s3. split; [exact Hs3 | apply (f_trans _ _ _ E12 E23)].
Qed.

Variable step : denote S -> denote I -> denote O -> list (denote S).
Hypothesis Step_step : NondeterministicModel.Step nm = Some step.
Hypothesis step_respects :
  forall a b input output x,
    f a b = true -> In x (step a input output) ->
    exists y, In y (step b input output) /\ f x y = true.

Lemma converted_Step_returns state input output :
  exists next,
    outcome (call3 (Model.Step converted) state input output)
    = Ok (0 <? List.length next, next) /\
    outcome (merge (flat_map (fun s => step s input output) state) equal) = Ok next.
Proof.
  destruct (merge_from_total _ equal f
              (flat_map (fun s => step s input output) state) []
              (equal_with_Equal S I O nm f Equal_f)) as [next Hnext].
  exists next. split; [| exact Hnext].
  rewrite converted_Step, outcome_bind.
  rewrite (collect_outcome S I O nm step state input output [] Step_step).
  simpl app. rewrite outcome_bind. unfold merge. rewrite Hnext. reflexivity.
Qed.

Lemma step_inclusion state1 state2 input output next1 next2 :
  (forall s1, In s1 state1 -> exists s2, In s2 state2 /\ f s1 s2 = true) ->
  outcome (merge (flat_map (fun s => step s input output) state1) equal) = Ok next1 ->
  outcome (merge (flat_map (fun s => step s input output) state2) equal) = Ok next2 ->
  forall y1, In y1 next1 -> exists y2, In y2 next2 /\ f y1 y2 = true.
Proof.
  intros Hincl H1 H2 y1 Hy1.
  destruct (merge_from_subsequence _ equal _ [] next1 H1) as [w [-> Hw]].
  simpl app in Hy1.
  apply (subsequence_In _ _ _ y1 Hw), in_flat_map in Hy1.
  destruct Hy1 as [s1 [Hs1 Hy1]].
  destruct (Hincl s1 Hs1) as [s2 [Hs2 E12]].
  destruct (step_respects s1 s2 input output y1 E12 Hy1) as [y [Hy E1]].
  destruct (merge_from_covers _ equal
              (flat_map (fun s => step s input output) state2) [] next2)
    with (x := y) as [y2 [Hy2 E2]].
  - intros x. unfold answers_true.
    rewrite (equal_with_Equal S I O nm f Equal_f), f_refl. reflexivity.
  - exact H2.
  - apply in_flat_map. exists s2. split; assumption.
  - exists y2. split; [exact Hy2 |].
    unfold answers_true in E2.
    rewrite (equal_with_Equal S I O nm f Equal_f) in E2. injection E2 as E2.
    apply (f_trans _ _ _ E1 E2).
Qed.

(** X8.  With an [Equal] that is reflexive, symmetric and transitive and a
    [Step] that maps equal states to equal results, the converted [Step]
    respects the converted [Equal]: from two state-sets it finds equal, the
    first one deduplicated, it returns, on a same input and output, the same
    success flag and two state-sets it finds equal. *)
Theorem converted_Step_respects_Equal state1 state2 input output :
  deduplicated equal state1 ->
  outcome (EQ state1 state2) = Ok true ->
  exists ok next1 next2,
    outcome (call3 (Model.Step converted) state1 input output) = Ok (ok, next1) /\
    outcome (call3 (Model.Step converted) state2 input output) = Ok (ok, next2) /\
    outcome (EQ next1 next2) = Ok true.
Proof.
  intros Hd H12.
  pose proof (converted_Equal_sym state1 state2 Hd H12) as H21.
  apply converted_Equal_true in H12, H21.
  destruct H12 as [_ H12]. destruct H21 as [_ H21].
  destruct (converted_Step_returns state1 input output) as [next1 [Hr1 Hm1]].
  destruct (converted_Step_returns state2 input output) as [next2 [Hr2 Hm2]].
  pose proof (step_inclusion state1 state2 input output next1 next2 H12 Hm1 Hm2)
    as Hincl12.
  pose proof (step_inclusion state2 state1 input output next2 next1 H21 Hm2 Hm1)
    as Hincl21.
  assert (Hpairs : forall states next,
             outcome (merge states equal) = Ok next ->
             ForallOrdPairs (fun a b => f b a = false) next).
  { intros states next Hm.
    apply (deduplicated_pairs _ f equal next (equal_with_Equal S I O nm f Equal_f)).
    apply (merge_deduplicated _ equal states next Hm). }
  destruct (covering_pigeonhole _ f f_sym f_trans next1 next2
              (Hpairs _ _ Hm1) Hincl12) as [Hle12 _].
  destruct (covering_pigeonhole _ f f_sym f_trans next2 next1
              (Hpairs _ _ Hm2) Hincl21) as [Hle21 _].
  assert (Hlen : List.length next1 = List.length next2) by lia.
  exists (0 <? List.length next1), next1, next2.
  split; [exact Hr1 | split].
  - rewrite Hlen. exact Hr2.
  - apply converted_Equal_true. split; [exact Hlen | exact Hincl12].
Qed.

End StateSetEquality.

(** ** Histories, the other way round *)

Lemma assert_Ok_box (T : gotype) (x : any) (v : denote T) :
  outcome (assert T x) = Ok v -> box T v = x /\ ~ nil_interface T v.
Proof.
  destruct T as [t|]; destruct x as [|u w]; simpl; try discriminate.
  - destruct (ctype_eq_dec u t) as [e|n]; [| discriminate].
    subst u. simpl. intros H. injection H as <-.
    split; [reflexivity | apply conc_not_nil_interface].
  - intros H. injection H as <-. split; [reflexivity | discriminate].
Qed.

Lemma box_inj (T : gotype) (v w : denote T) : box T v = box T w -> v = w.
Proof.
  destruct T as [t|]; simpl; intros H; [| exact H].
  injection H as H. apply (inj_pair2_eq_dec _ ctype_eq_dec) in H. exact H.
Qed.

Lemma forM_Ok {A B : Type} (f : A -> M B) (l : list A) (bs : list B) :
  outcome (forM f l) = Ok bs -> Forall2 (fun a b => outcome (f a) = Ok b) l bs.
Proof.
  revert bs. induction l as [|a l IH]; intros bs H.
  - injection H as <-. constructor.
  - rewrite forM_cons, outcome_bind in H.
    destruct (outcome (f a)) as [b|p] eqn:Ea; [| discriminate].
    rewrite outcome_bind in H.
    destruct (outcome (forM f l)) as [bs'|p] eqn:El; [| discriminate].
    injection H as <-. constructor; [exact Ea | apply IH; reflexivity].
Qed.

Section HistoriesBack.

Variables I O : gotype.

(** X9.  Whenever [convertToTypedOperations] returns, converting its result
    with [convertToUntypedOperations] gives back the opaque history it was
    given, and no [Input] or [Output] of the result is a nil interface
    value. *)
Theorem operations_typed_then_untyped (history : list porcupine.Operation)
    (H : list (Operation (denote I) (denote O))) :
  outcome (convertToTypedOperations I O history) = Ok H ->
  convertToUntypedOperations I O H = history /\
  Forall (fun op => ~ nil_interface I (op_Input op) /\
                    ~ nil_interface O (op_Output op)) H.
Proof.
  intros Hr. apply forM_Ok in Hr.
  induction Hr as [|[cid inp c out r] top history H Hop _ [IH1 IH2]].
  - split; [reflexivity | constructor].
  - cbn [porcupine.op_Input porcupine.op_Output porcupine.op_ClientId
         porcupine.op_Call porcupine.op_Return] in Hop.
    rewrite outcome_bind in Hop.
    destruct (outcome (assert I inp)) as [i|p] eqn:Ei; [| discriminate].
    rewrite outcome_bind in Hop.
    destruct (outcome (assert O out)) as [o|p] eqn:Eo; [| discriminate].
    injection Hop as <-.
    destruct (assert_Ok_box I inp i Ei) as [Hi Hni].
    destruct (assert_Ok_box O out o Eo) as [Ho Hno].
    split.
    + simpl. rewrite Hi, Ho, IH1. reflexivity.
    + constructor; [split; assumption | exact IH2].
Qed.

(** X10.  Whenever [convertToTypedEvents] returns, converting its result
    with [convertToUntypedEvents] gives back the opaque history it was
    given; every event of the result has the zero value in the slot its kind
    does not select and no nil interface value in the slot it selects. *)
Theorem events_typed_then_untyped (history : list porcupine.Event)
    (H : list (Event (denote I) (denote O))) :
  outcome (convertToTypedEvents I O history) = Ok H ->
  convertToUntypedEvents I O H = history /\
  Forall (fun ev => rehydrated I O ev = ev /\ ~ carries_nil I O ev) H.
Proof.
  intros Hr. apply forM_Ok in Hr.
  induction Hr as [|[cid kind value id] tev history H Hev _ [IH1 IH2]].
  - split; [reflexivity | constructor].
  - cbn [porcupine.ev_Kind porcupine.ev_Value porcupine.ev_ClientId
         porcupine.ev_Id] in Hev.
    rewrite outcome_bind in Hev.
    destruct kind; cbn [EventKind_eqb] in Hev; rewrite outcome_bind in Hev.
    + destruct (outcome (assert I value)) as [i|p] eqn:Ei; [| discriminate].
      injection Hev as <-.
      destruct (assert_Ok_box I value i Ei) as [Hi Hni].
      split; [simpl; rewrite Hi, IH1; reflexivity |].
      constructor; [split; [reflexivity | exact Hni] | exact IH2].
    + destruct (outcome (assert O value)) as [o|p] eqn:Eo; [| discriminate].
      injection Hev as <-.
      destruct (assert_Ok_box O value o Eo) as [Ho Hno].
      split; [simpl; rewrite Ho, IH1; reflexivity |].
      constructor; [split; [reflexivity | exact Hno] | exact IH2].
Qed.

(** X11.  [convertToUntypedOperations] loses nothing: two typed histories
    with the same opaque form are the same history. *)
Theorem convertToUntypedOperations_injective
    (H1 H2 : list (Operation (denote I) (denote O))) :
  convertToUntypedOperations I O H1 = convertToUntypedOperations I O H2 ->
  H1 = H2.
Proof.
  revert H2. induction H1 as [|[cid1 i1 c1 o1 r1] H1 IH]; intros [|[cid2 i2 c2 o2 r2] H2];
    simpl; intros E; try discriminate; [reflexivity |].
  injection E as -> Ei -> Eo -> E.
  rewrite (box_inj I i1 i2 Ei), (box_inj O o1 o2 Eo), (IH H2 E). reflexivity.
Qed.

(** X12.  [convertToUntypedEvents] reads of an event only its [ClientId],
    [Kind] and [Id] and the value slot the kind selects: two typed histories
    have the same opaque form exactly when they agree once the other slot of
    every event is set to the zero value. *)
Theorem convertToUntypedEvents_selected_slot
    (H1 H2 : list (Event (denote I) (denote O))) :
  convertToUntypedEvents I O H1 = convertToUntypedEvents I O H2 <->
  map (rehydrated I O) H1 = map (rehydrated I O) H2.
Proof.
  revert H2. induction H1 as [|[cid1 k1 i1 o1 id1] H1 IH];
    intros [|[cid2 k2 i2 o2 id2] H2]; simpl; split; intros E;
    try discriminate; try reflexivity.
  - injection E as -> -> Ev -> E. apply IH in E. rewrite E. f_equal.
    unfold rehydrated. simpl. destruct k2; simpl in Ev.
    + rewrite (box_inj I i1 i2 Ev). reflexivity.
    + rewrite (box_inj O o1 o2 Ev). reflexivity.
  - injection E as Eh E. apply IH in E. rewrite E. f_equal.
    unfold rehydrated in Eh. simpl in Eh.
    destruct k1, k2; simpl; try discriminate Eh.
    + injection Eh as -> -> ->. reflexivity.
    + injection Eh as -> -> ->. reflexivity.
Qed.

End HistoriesBack.

Lemma operations_typed_then_untyped_witness :
  convertToUntypedOperations (Conc TString) Iface
    [mkOperation 0 "get"%string 10 (ADyn TInt 7%Z) 20]
  = [porcupine.mkOperation 0 (ADyn TString "get"%string) 10 (ADyn TInt 7%Z) 20].
Proof.
  apply (operations_typed_then_untyped (Conc TString) Iface
           [porcupine.mkOperation 0 (ADyn TString "get"%string) 10 (ADyn TInt 7%Z) 20]
           [mkOperation 0 "get"%string 10 (ADyn TInt 7%Z) 20] eq_refl).
Defined.

Lemma events_typed_then_untyped_witness :
  convertToUntypedEvents (Conc TString) (Conc TInt)
    [mkEvent 0 CallEvent "get"%string 0%Z 1; mkEvent 0 ReturnEvent EmptyString 7%Z 1]
  = [porcupine.mkEvent 0 CallEvent (ADyn TString "get"%string) 1;
     porcupine.mkEvent 0 ReturnEvent (ADyn TInt 7%Z) 1].
Proof.
  apply (events_typed_then_untyped (Conc TString) (Conc TInt)
           [porcupine.mkEvent 0 CallEvent (ADyn TString "get"%string) 1;
            porcupine.mkEvent 0 ReturnEvent (ADyn TInt 7%Z) 1]
           [mkEvent 0 CallEvent "get"%string 0%Z 1;
            mkEvent 0 ReturnEvent EmptyString 7%Z 1] eq_refl).
Defined.

Lemma convertToUntypedOperations_injective_witness :
  [mkOperation 0 "get"%string 10 7%Z 20] = [mkOperation 0 "get"%string 10 7%Z 20].
Proof.
  apply (convertToUntypedOperations_injective (Conc TString) (Conc TInt)
           [mkOperation 0 "get"%string 10 7%Z 20]
           [mkOperation 0 "get"%string 10 7%Z 20] eq_refl).
Defined.

(** ** Partition functions through the adapter *)

Lemma convertToTypedOperations_boxed (I O : gotype)
    (H : list (Operation (denote I) (denote O))) :
  Forall (fun op => ~ nil_interface I (op_Input op) /\
                    ~ nil_interface O (op_Output op)) H ->
  convertToTypedOperations I O (convertToUntypedOperations I O H) = ret H.
Proof.
  induction 1 as [|[cid inp c out r] H [Hi Ho] _ IH]; [reflexivity |].
  cbn [op_Input op_Output] in Hi, Ho.
  unfold convertToTypedOperations, convertToUntypedOperations in *.
  rewrite map_cons, forM_cons, IH.
  cbn [porcupine.op_Input porcupine.op_Output porcupine.op_ClientId
       porcupine.op_Call porcupine.op_Return op_Input op_Output op_ClientId
       op_Call op_Return].
  rewrite (assert_box Hi), bind_ret_l, (assert_box Ho), !bind_ret_l.
  reflexivity.
Qed.

Lemma rehydrate_event_cases (I O : gotype) (ev : Event (denote I) (denote O)) :
  let rehydrate := fun ev' : porcupine.Event =>
    io <- (if EventKind_eqb (porcupine.ev_Kind ev') CallEvent
           then input <- assert I (porcupine.ev_Value ev') ;; ret (input, zero O)
           else output <- assert O (porcupine.ev_Value ev') ;; ret (zero I, output)) ;;
    ret (mkEvent (porcupine.ev_ClientId ev') (porcupine.ev_Kind ev')
                 (fst io) (snd io) (porcupine.ev_Id ev')) in
  let untyped :=
    porcupine.mkEvent (ev_ClientId ev) (ev_Kind ev)
      (if EventKind_eqb (ev_Kind ev) CallEvent
       then box I (ev_Input ev) else box O (ev_Output ev)) (ev_Id ev) in
  (carries_nil I O ev /\ rehydrate untyped = raise TypeAssertion) \/
  (~ carries_nil I O ev /\ exists tev, rehydrate untyped = ret tev).
Proof.
  destruct ev as [cid kind inp out id]. unfold carries_nil, nil_interface.
  cbn [ev_Kind ev_Input ev_Output ev_ClientId ev_Id porcupine.ev_Kind
       porcupine.ev_Value porcupine.ev_ClientId porcupine.ev_Id].
  destruct kind; cbn [EventKind_eqb].
  - destruct (box I inp) as [|t v] eqn:E.
    + left. split; [reflexivity |]. rewrite assert_nil. reflexivity.
    + right. split; [discriminate |]. rewrite <- E.
      rewrite (@assert_box I inp) by (unfold nil_interface; rewrite E; discriminate).
      rewrite !bind_ret_l. eexists. reflexivity.
  - destruct (box O out) as [|t v] eqn:E.
    + left. split; [reflexivity |]. rewrite assert_nil. reflexivity.
    + right. split; [discriminate |]. rewrite <- E.
      rewrite (@assert_box O out) by (unfold nil_interface; rewrite E; discriminate).
      rewrite !bind_ret_l. eexists. reflexivity.
Qed.

Lemma convertToTypedEvents_carried_nil (I O : gotype)
    (H : list (Event (denote I) (denote O))) :
  Exists (carries_nil I O) H ->
  convertToTypedEvents I O (convertToUntypedEvents I O H) = raise TypeAssertion.
Proof.
  intros Hex. unfold convertToTypedEvents, convertToUntypedEvents.
  apply forM_raise.
  - apply Forall_map, Forall_forall. intros ev _.
    destruct (rehydrate_event_cases I O ev) as [[_ E] | [_ [tev E]]].
    + left. exact E.
    + right. exists tev. exact E.
  - apply Exists_map. eapply Exists_impl; [| exact Hex].
    intros ev Hnil.
    destruct (rehydrate_event_cases I O ev) as [[_ E] | [Hnot _]];
      [exact E | contradiction].
Qed.

Section PartitionAdapters.

Variables S I O : gotype.
Variable m : Model.t (denote S) (denote I) (denote O).

Local Abbreviation adapted := (Model.ToModel S I O m).

(** X13.  The [Partition] of [m.ToModel()], on the opaque form of a typed
    history without nil interface values, runs the typed partition function
    on that very history and returns the opaque form of each partition it
    returns, in order. *)
Theorem adapted_Partition_transparent partition
    (H : list (Operation (denote I) (denote O))) :
  Model.Partition m = Some partition ->
  Forall (fun op => ~ nil_interface I (op_Input op) /\
                    ~ nil_interface O (op_Output op)) H ->
  call1 (porcupine.Partition adapted) (convertToUntypedOperations I O H)
  = (partitions <- partition H ;;
     ret (map (convertToUntypedOperations I O) partitions)).
Proof.
  intros Hm HH. unfold Model.ToModel. cbn [porcupine.Partition].
  rewrite Hm. cbv beta iota delta [call1 applyTypedPartitionOperation].
  rewrite (convertToTypedOperations_boxed I O H HH), bind_ret_l. reflexivity.
Qed.

(** X14.  The [PartitionEvent] of [m.ToModel()], on the opaque form of a
    typed event history: when no call event has a nil interface value as
    [Input] and no return event has one as [Output], it runs the typed
    partition function not on that history but on its rehydrated form, in
    which the [Output] of every call event and the [Input] of every return
    event are zero values; when some event carries such a nil interface
    value, it panics and the typed partition function is not run. *)
Theorem adapted_PartitionEvent_rehydrated partition
    (H : list (Event (denote I) (denote O))) :
  Model.PartitionEvent m = Some partition ->
  (Forall (fun ev => ~ carries_nil I O ev) H ->
   call1 (porcupine.PartitionEvent adapted) (convertToUntypedEvents I O H)
   = (partitions <- partition (map (rehydrated I O) H) ;;
      ret (map (convertToUntypedEvents I O) partitions))) /\
  (Exists (carries_nil I O) H ->
   call1 (porcupine.PartitionEvent adapted) (convertToUntypedEvents I O H)
   = raise TypeAssertion).
Proof.
  intros Hm. split; intros HH; unfold Model.ToModel; cbn [porcupine.PartitionEvent];
    rewrite Hm; cbv beta iota delta [call1 applyTypedPartitionEvent].
  - rewrite (@events_roundtrip_map I O H HH), bind_ret_l. reflexivity.
  - rewrite (convertToTypedEvents_carried_nil I O H HH). reflexivity.
Qed.

(** [m.ToModel()] has a field exactly when [m] has it: no nil field of
    the typed model becomes a func of the opaque one, and none is lost. *)
Lemma adapted_fields_present :
  (porcupine.Partition adapted = None <-> Model.Partition m = None) /\
  (porcupine.PartitionEvent adapted = None <-> Model.PartitionEvent m = None) /\
  (porcupine.Init adapted = None <-> Model.Init m = None) /\
  (porcupine.Step adapted = None <-> Model.Step m = None) /\
  (porcupine.Equal adapted = None <-> Model.Equal m = None) /\
  (porcupine.DescribeOperation adapted = None <->
   Model.DescribeOperation m = None) /\
  (porcupine.DescribeState adapted = None <-> Model.DescribeState m = None).
Proof.
  unfold Model.ToModel. simpl.
  destruct (Model.Partition m), (Model.PartitionEvent m), (Model.Init m),
    (Model.Step m), (Model.Equal m), (Model.DescribeOperation m),
    (Model.DescribeState m);
    repeat split; intros; solve [reflexivity | discriminate].
Qed.

End PartitionAdapters.

Lemma adapted_Partition_transparent_witness :
  call1 (porcupine.Partition
           (Model.ToModel (Conc TInt) (Conc TString) (Conc TInt)
              (Model.mk (Some (fun history => ret [history; []])) None
                 None None None None None)))
    (convertToUntypedOperations (Conc TString) (Conc TInt)
       [mkOperation 0 "get"%string 10 7%Z 20])
  = ret [[porcupine.mkOperation 0 (ADyn TString "get"%string) 10 (ADyn TInt 7%Z) 20];
         []].
Proof.
  apply (adapted_Partition_transparent (Conc TInt) (Conc TString) (Conc TInt)
           (Model.mk (Some (fun history => ret [history; []])) None
              None None None None None)
           (fun history => ret [history; []])
           [mkOperation 0 "get"%string 10 7%Z 20] eq_refl).
  repeat constructor; simpl; apply conc_not_nil_interface.
Defined.

Lemma adapted_PartitionEvent_rehydrated_witness :
  call1 (porcupine.PartitionEvent
           (Model.ToModel (Conc TInt) (Conc TString) (Conc TInt)
              (Model.mk None (Some (fun history => ret [history]))
                 None None None None None)))
    (convertToUntypedEvents (Conc TString) (Conc TInt)
       [mkEvent 0 ReturnEvent "get"%string 7%Z 1])
  = ret [[porcupine.mkEvent 0 ReturnEvent (ADyn TInt 7%Z) 1]] /\
  call1 (porcupine.PartitionEvent
           (Model.ToModel (Conc TInt) (Conc TString) Iface
              (Model.mk None (Some (fun history => ret [history]))
                 None None None None None)))
    (convertToUntypedEvents (Conc TString) Iface
       [mkEvent 0 ReturnEvent "get"%string ANil 1])
  = raise TypeAssertion.
Proof.
  split.
  - apply (proj1 (adapted_PartitionEvent_rehydrated
                    (Conc TInt) (Conc TString) (Conc TInt)
                    (Model.mk None (Some (fun history => ret [history]))
                       None None None None None)
                    (fun history => ret [history])
                    [mkEvent 0 ReturnEvent "get"%string 7%Z 1] eq_refl)).
    repeat constructor; unfold carries_nil; simpl; apply conc_not_nil_interface.
  - apply (proj2 (adapted_PartitionEvent_rehydrated
                    (Conc TInt) (Conc TString) Iface
                    (Model.mk None (Some (fun history => ret [history]))
                       None None None None None)
                    (fun history => ret [history])
                    [mkEvent 0 ReturnEvent "get"%string ANil 1] eq_refl)).
    constructor. reflexivity.
Defined.

Section PartitionFailures.

Variables I O : ctype.

(** X15.  [applyTypedPartitionOperation] and [applyTypedPartitionEvent]
    return no partition at all, whatever the history, when the partition
    function is nil; with a partition function, a history holding a value of
    another type than declared makes them panic before that function is
    run. *)
Theorem applyTypedPartition_edges :
  (forall history,
      applyTypedPartitionOperation (Conc I) (Conc O) None history = ret []) /\
  (forall history,
      applyTypedPartitionEvent (Conc I) (Conc O) None history = ret []) /\
  (forall partition history,
      Exists (fun op => ~ operation_has_type I O op) history ->
      applyTypedPartitionOperation (Conc I) (Conc O) (Some partition) history
      = raise TypeAssertion) /\
  (forall partition history,
      Exists (fun ev => ~ event_has_type I O ev) history ->
      applyTypedPartitionEvent (Conc I) (Conc O) (Some partition) history
      = raise TypeAssertion).
Proof.
  repeat split.
  - intros partition history Hbad. unfold applyTypedPartitionOperation.
    rewrite (@convertToTypedOperations_mistyped I O history Hbad). reflexivity.
  - intros partition history Hbad. unfold applyTypedPartitionEvent.
    rewrite (@convertToTypedEvents_mistyped I O history Hbad). reflexivity.
Qed.

End PartitionFailures.

Lemma applyTypedPartition_edges_witness :
  applyTypedPartitionOperation (Conc TString) (Conc TInt)
    (Some (fun history => ret [history]))
    [porcupine.mkOperation 0 (ADyn TString "get"%string) 10 ANil 20]
  = raise TypeAssertion.
Proof.
  destruct (applyTypedPartition_edges TString TInt) as (_ & _ & Hops & _).
  apply Hops. constructor. intros [_ Hout]. discriminate Hout.
Defined.

(** ** What the adapted model hands to the checker *)

Section AdaptedOutputs.

Variables S I O : ctype.
Variable m : Model.t (denote (Conc S)) (denote (Conc I)) (denote (Conc O)).

Local Abbreviation adapted := (Model.ToModel (Conc S) (Conc I) (Conc O) m).

(** X16.  With declared concrete types, every state the adapted [Init] or
    [Step] returns has the declared state type as its run-time type, so it
    can be handed back to the adapted [Step] and [Equal]; and the adapted
    [Step] returns only if its three arguments had the declared types. *)
Theorem adapted_states_typed :
  (forall state,
      outcome (call0 (porcupine.Init adapted)) = Ok state -> has_type S state) /\
  (forall state input output ok state',
      outcome (call3 (porcupine.Step adapted) state input output) = Ok (ok, state') ->
      has_type S state /\ has_type I input /\ has_type O output /\
      has_type S state').
Proof.
  split.
  - intros state. unfold Model.ToModel. cbn [porcupine.Init].
    destruct (Model.Init m) as [init|]; [| discriminate].
    cbv beta iota delta [call0]. rewrite outcome_bind.
    destruct (outcome (init tt)) as [s|p]; [| discriminate].
    intros H. injection H as <-. reflexivity.
  - intros state input output ok state'. unfold Model.ToModel. cbn [porcupine.Step].
    destruct (Model.Step m) as [step|]; [| discriminate].
    cbv beta iota delta [call3].
    destruct (assert_conc_dec S state) as [[s [-> Ha]] | [_ Ha]];
      rewrite Ha; [rewrite bind_ret_l | discriminate].
    destruct (assert_conc_dec I input) as [[i [-> Hb]] | [_ Hb]];
      rewrite Hb; [rewrite bind_ret_l | discriminate].
    destruct (assert_conc_dec O output) as [[o [-> Hc]] | [_ Hc]];
      rewrite Hc; [rewrite bind_ret_l | discriminate].
    rewrite outcome_bind.
    destruct (outcome (step s i o)) as [r|p]; [| discriminate].
    intros H. injection H as _ <-. repeat split.
Qed.

End AdaptedOutputs.

Lemma adapted_states_typed_witness :
  has_type TInt (ADyn TInt 4%Z) /\ has_type TInt (ADyn TInt 1%Z) /\
  has_type TInt (ADyn TInt 5%Z) /\ has_type TInt (ADyn TInt 5%Z).
Proof.
  destruct (adapted_states_typed TInt TInt TInt counter) as [_ HStep].
  apply (HStep (ADyn TInt 4%Z) (ADyn TInt 1%Z) (ADyn TInt 5%Z) true
           (ADyn TInt 5%Z) eq_refl).
Defined.

Section ErasedPowerSet.

Variable Sprintf_v : any -> string.
Variable S : ctype.
Variables I O : gotype.
Variable nm : NondeterministicModel.t (denote (Conc S)) (denote I) (denote O).

Local Abbreviation converted :=
  (NondeterministicModel.ToModel Sprintf_v (Conc S) I O nm).
Local Abbreviation erased := (Model.ToModel (Conc (TSlice S)) I O converted).

(** X17.  The converted model of any nondeterministic model, adapted with
    [Model.ToModel], always has [Init], [Step], [Equal] and both description
    functions.  State-sets reach the checker as boxed slices; on them the
    opaque [Equal] is the converted [Equal], and the opaque [Step], given an
    input and an output that are not nil interface values, is the converted
    [Step] with its state-set boxed. *)
Theorem erased_power_set :
  (porcupine.Init erased <> None /\ porcupine.Step erased <> None /\
   porcupine.Equal erased <> None /\ porcupine.DescribeOperation erased <> None /\
   porcupine.DescribeState erased <> None) /\
  (forall state1 state2,
      call2 (porcupine.Equal erased)
        (ADyn (TSlice S) state1) (ADyn (TSlice S) state2)
      = call2 (Model.Equal converted) state1 state2) /\
  (forall state input output,
      ~ nil_interface I input -> ~ nil_interface O output ->
      call3 (porcupine.Step erased)
        (ADyn (TSlice S) state) (box I input) (box O output)
      = (r <- call3 (Model.Step converted) state input output ;;
         ret (fst r, ADyn (TSlice S) (snd r)))).
Proof.
  split; [| split].
  - unfold Model.ToModel, NondeterministicModel.ToModel. simpl.
    unfold NondeterministicModel.describeOperation.
    destruct (NondeterministicModel.DescribeOperation nm); simpl;
      (split; [| split; [| split; [| split]]]); discriminate.
  - intros state1 state2. unfold Model.ToModel. cbn [porcupine.Equal].
    cbv beta iota delta [call2 Model.Equal NondeterministicModel.ToModel].
    rewrite !assert_conc_dyn, !bind_ret_l. reflexivity.
  - intros state input output Hi Ho. unfold Model.ToModel. cbn [porcupine.Step].
    cbv beta iota delta [call3 Model.Step NondeterministicModel.ToModel].
    rewrite assert_conc_dyn, bind_ret_l, (assert_box Hi), bind_ret_l,
      (assert_box Ho), bind_ret_l.
    reflexivity.
Qed.

End ErasedPowerSet.

Lemma erased_power_set_witness :
  call3 (porcupine.Step
           (Model.ToModel (Conc (TSlice TInt)) (Conc TString) (Conc TInt)
              (NondeterministicModel.ToModel (fun _ => EmptyString)
                 (Conc TInt) (Conc TString) (Conc TInt) (register None [0%Z]))))
    (ADyn (TSlice TInt) [0%Z]) (ADyn TString "write1"%string) (ADyn TInt 0%Z)
  = (r <- call3 (Model.Step
                   (NondeterministicModel.ToModel (fun _ => EmptyString)
                      (Conc TInt) (Conc TString) (Conc TInt) (register None [0%Z])))
            [0%Z] "write1"%string 0%Z ;;
     ret (fst r, ADyn (TSlice TInt) (snd r))).
Proof.
  destruct (erased_power_set (fun _ => EmptyString) TInt (Conc TString) (Conc TInt)
              (register None [0%Z])) as (_ & _ & HStep).
  apply (HStep [0%Z] "write1"%string 0%Z);
    apply conc_not_nil_interface.
Defined.

(** ** Descriptions of state-sets *)

Section Descriptions.

Variable Sprintf_v : any -> string.
Variables S I O : gotype.
Variable nm : NondeterministicModel.t (denote S) (denote I) (denote O).

Local Abbreviation converted := (NondeterministicModel.ToModel Sprintf_v S I O nm).

Lemma describe_all_outcome states descriptions :
  outcome (NondeterministicModel.describe_all Sprintf_v S I O nm states descriptions) =
  Ok (descriptions ++
      map (match NondeterministicModel.DescribeState nm with
           | Some describe => describe
           | None => fun state => Sprintf_v (box S state)
           end) states).
Proof.
  revert descriptions. induction states as [|state rest IH]; intros acc.
  - simpl. rewrite app_nil_r. reflexivity.
  - simpl NondeterministicModel.describe_all. rewrite outcome_bind.
    unfold NondeterministicModel.describeState at 1.
    destruct (NondeterministicModel.DescribeState nm) as [describe|] eqn:Hd.
    + change (outcome (call1 (callback1 NmDescribeState (Some describe)) state))
        with (Ok (describe state)).
      cbv iota. rewrite IH. rewrite <- app_assoc. reflexivity.
    + change (outcome (call1 (Some (NondeterministicModel.defaultDescribeState
                                      Sprintf_v S)) state))
        with (Ok (Sprintf_v (box S state))).
      cbv iota. rewrite IH. rewrite <- app_assoc. reflexivity.
Qed.

(** X18.  The converted [DescribeState] renders a state-set as the
    descriptions of its states, in the order of the state-set, joined with a
    comma and a space and put in braces; each state is described by
    [nm.DescribeState], or with the [%v] format when that is nil.  It never
    panics. *)
Theorem converted_DescribeState states :
  outcome (call1 (Model.DescribeState converted) states) =
  Ok ("{" ++
      String.concat ", "
        (map (match NondeterministicModel.DescribeState nm with
              | Some describe => describe
              | None => fun state => Sprintf_v (box S state)
              end) states) ++
      "}")%string.
Proof.
  unfold NondeterministicModel.ToModel. cbn [Model.DescribeState call1].
  rewrite outcome_bind, describe_all_outcome. reflexivity.
Qed.

End Descriptions.

(** ** The direct conversion to an opaque nondeterministic model *)

Section UntypedNondeterministic.

Variables S I O : ctype.
Variable nm : NondeterministicModel.t (denote (Conc S)) (denote (Conc I))
                                      (denote (Conc O)).

Local Abbreviation untyped :=
  (untypedNondeterministic (Conc S) (Conc I) (Conc O) nm).

(** X19.  The opaque nondeterministic model that [ToUntypedModel] builds
    has [Init], [Step] and [Equal] exactly when [nm] has them: no fallback
    equality is put in here.  Its [Step], on values of the declared concrete
    types, runs [nm.Step] once and returns its states boxed, in order; on a
    value of another type it panics before [nm.Step] is run.  Its [Init]
    returns the initial states boxed, without merging them. *)
Theorem untypedNondeterministic_fields :
  ((porcupineNondeterministic.Init untyped = None <->
    NondeterministicModel.Init nm = None) /\
   (porcupineNondeterministic.Step untyped = None <->
    NondeterministicModel.Step nm = None) /\
   (porcupineNondeterministic.Equal untyped = None <->
    NondeterministicModel.Equal nm = None)) /\
  (forall step s i o,
      NondeterministicModel.Step nm = Some step ->
      call3 (porcupineNondeterministic.Step untyped)
        (ADyn S s) (ADyn I i) (ADyn O o)
      = ([NmStep], Ok (convertSliceToAny (Conc S) (step s i o)))) /\
  (forall step state input output,
      NondeterministicModel.Step nm = Some step ->
      ~ (has_type S state /\ has_type I input /\ has_type O output) ->
      call3 (porcupineNondeterministic.Step untyped) state input output
      = raise TypeAssertion) /\
  (forall init,
      NondeterministicModel.Init nm = Some init ->
      call0 (porcupineNondeterministic.Init untyped)
      = ([NmInit], Ok (convertSliceToAny (Conc S) (init tt)))).
Proof.
  split; [| split; [| split]].
  - unfold untypedNondeterministic.
    destruct (NondeterministicModel.Init nm), (NondeterministicModel.Step nm),
      (NondeterministicModel.Equal nm); simpl;
      (split; [| split]); split; intros E;
      solve [reflexivity | discriminate E].
  - intros step s i o Hstep. unfold untypedNondeterministic.
    cbn [porcupineNondeterministic.Step]. rewrite Hstep.
    cbv beta iota delta [call3].
    rewrite !assert_conc_dyn, !bind_ret_l. reflexivity.
  - intros step state input output Hstep Hbad. unfold untypedNondeterministic.
    cbn [porcupineNondeterministic.Step]. rewrite Hstep.
    cbv beta iota delta [call3].
    downcast S state. downcast I input. downcast O output.
    exfalso. apply Hbad. subst. repeat split; reflexivity.
  - intros init Hinit. unfold untypedNondeterministic.
    cbn [porcupineNondeterministic.Init]. rewrite Hinit. reflexivity.
Qed.

End UntypedNondeterministic.

Lemma untypedNondeterministic_fields_witness :
  call3 (porcupineNondeterministic.Step
           (untypedNondeterministic (Conc TInt) (Conc TString) (Conc TInt)
              (register None [0%Z])))
    (ADyn TInt 0%Z) (ADyn TString "write1"%string) (ADyn TInt 0%Z)
  = ([NmStep], Ok [ADyn TInt 0%Z; ADyn TInt 1%Z]) /\
  call3 (porcupineNondeterministic.Step
           (untypedNondeterministic (Conc TInt) (Conc TString) (Conc TInt)
              (register None [0%Z])))
    ANil (ADyn TString "write1"%string) (ADyn TInt 0%Z)
  = raise TypeAssertion.
Proof.
  destruct (untypedNondeterministic_fields TInt TString TInt (register None [0%Z]))
    as (_ & HStep & Hbad & _).
  split.
  - apply (HStep register_step 0%Z "write1"%string 0%Z eq_refl).
  - apply (Hbad register_step ANil (ADyn TString "write1"%string) (ADyn TInt 0%Z)
             eq_refl).
    intros [Hst _]. discriminate Hst.
Defined.

Lemma converted_Step_calls_witness :
  exists k,
    calls (call3 (Model.Step
                    (NondeterministicModel.ToModel (fun _ => EmptyString)
                       (Conc TInt) (Conc TString) (Conc TInt)
                       (register (Some Z.eqb) [0%Z])))
             [0; 1]%Z "write1"%string 0%Z) =
    repeat NmStep (List.length [0; 1]%Z) ++ repeat NmEqual k /\
    2 * k + List.length (flat_map (fun s => register_step s "write1" 0%Z) [0; 1]%Z) <=
    List.length (flat_map (fun s => register_step s "write1" 0%Z) [0; 1]%Z) *
    List.length (flat_map (fun s => register_step s "write1" 0%Z) [0; 1]%Z) /\
    (NondeterministicModel.Equal (register (Some Z.eqb) [0%Z]) = None -> k = 0).
Proof.
  apply (converted_Step_calls (fun _ => EmptyString)
           (Conc TInt) (Conc TString) (Conc TInt)
           (register (Some Z.eqb) [0%Z]) register_step
           [0; 1]%Z "write1"%string 0%Z eq_refl).
Defined.

Lemma converted_Step_sound_complete_witness :
  subsequence [0; 1]%Z (flat_map (fun s => register_step s "write1" 0%Z) [0; 1]%Z) /\
  (forall y, In y [0; 1]%Z ->
             exists s, In s [0; 1]%Z /\ In y (register_step s "write1" 0%Z)) /\
  ((forall x,
       answers_true (NondeterministicModel.equal (Conc TInt) (Conc TString) (Conc TInt)
                       (register (Some Z.eqb) [0%Z])) x x) ->
   forall s y,
     In s [0; 1]%Z -> In y (register_step s "write1" 0%Z) ->
     exists y',
       In y' [0; 1]%Z /\
       answers_true (NondeterministicModel.equal (Conc TInt) (Conc TString) (Conc TInt)
                       (register (Some Z.eqb) [0%Z])) y y').
Proof.
  apply (converted_Step_sound_complete (fun _ => EmptyString)
           (Conc TInt) (Conc TString) (Conc TInt)
           (register (Some Z.eqb) [0%Z]) register_step
           [0; 1]%Z "write1"%string 0%Z true [0; 1]%Z eq_refl eq_refl).
Defined.

Lemma converted_nil_callbacks_panic_witness :
  call3 (Model.Step
           (NondeterministicModel.ToModel (fun _ => EmptyString)
              (Conc TInt) (Conc TString) (Conc TInt)
              (NondeterministicModel.mk None None None None None None None)))
    [0%Z] "write1"%string 0%Z
  = raise NilFuncCall /\
  call0 (Model.Init
           (NondeterministicModel.ToModel (fun _ => EmptyString)
              (Conc TInt) (Conc TString) (Conc TInt)
              (NondeterministicModel.mk None None None None None None None)))
  = raise NilFuncCall.
Proof.
  destruct (converted_nil_callbacks_panic (fun _ => EmptyString)
              (Conc TInt) (Conc TString) (Conc TInt)
              (NondeterministicModel.mk None None None None None None None))
    as [HStep HInit].
  split.
  - apply (HStep eq_refl [0%Z] "write1"%string 0%Z). discriminate.
  - apply (HInit eq_refl).
Defined.

Lemma register_states_deduplicated :
  deduplicated
    (NondeterministicModel.equal (Conc TInt) (Conc TString) (Conc TInt)
       (register (Some Z.eqb) [0%Z]))
    [0; 1]%Z.
Proof.
  intros i j y x Hlt Hi Hj.
  destruct j as [|[|[|j]]]; try discriminate Hj; [lia |].
  destruct i as [|[|i]]; try lia.
  injection Hi as <-. injection Hj as <-. reflexivity.
Qed.

Lemma Z_eqb_trans (x y z : Z) :
  Z.eqb x y = true -> Z.eqb y z = true -> Z.eqb x z = true.
Proof. rewrite !Z.eqb_eq. congruence. Qed.

Lemma Z_eqb_sym_true (x y : Z) : Z.eqb x y = true -> Z.eqb y x = true.
Proof. rewrite !Z.eqb_eq. congruence. Qed.

Lemma register_step_respects (a b : Z) (input : string) (output x : Z) :
  Z.eqb a b = true -> In x (register_step a input output) ->
  exists y, In y (register_step b input output) /\ Z.eqb x y = true.
Proof.
  intros E Hx. apply Z.eqb_eq in E. subst b.
  exists x. split; [exact Hx | apply Z.eqb_refl].
Qed.

Lemma converted_Equal_equivalence_witness :
  outcome (call2 (Model.Equal
                    (NondeterministicModel.ToModel (fun _ => EmptyString)
                       (Conc TInt) (Conc TString) (Conc TInt)
                       (register (Some Z.eqb) [0%Z])))
             [1; 0]%Z [0; 1]%Z) = Ok true.
Proof.
  destruct (converted_Equal_equivalence (fun _ => EmptyString)
              (Conc TInt) (Conc TString) (Conc TInt)
              (register (Some Z.eqb) [0%Z]) Z.eqb eq_refl
              Z.eqb_refl Z_eqb_sym_true Z_eqb_trans) as (_ & Hsym & _).
  apply (Hsym [0; 1]%Z [1; 0]%Z register_states_deduplicated eq_refl).
Defined.

Lemma converted_Step_respects_Equal_witness :
  exists ok next1 next2,
    outcome (call3 (Model.Step
                      (NondeterministicModel.ToModel (fun _ => EmptyString)
                         (Conc TInt) (Conc TString) (Conc TInt)
                         (register (Some Z.eqb) [0%Z])))
               [0; 1]%Z "read"%string 1%Z) = Ok (ok, next1) /\
    outcome (call3 (Model.Step
                      (NondeterministicModel.ToModel (fun _ => EmptyString)
                         (Conc TInt) (Conc TString) (Conc TInt)
                         (register (Some Z.eqb) [0%Z])))
               [1; 0]%Z "read"%string 1%Z) = Ok (ok, next2) /\
    outcome (call2 (Model.Equal
                      (NondeterministicModel.ToModel (fun _ => EmptyString)
                         (Conc TInt) (Conc TString) (Conc TInt)
                         (register (Some Z.eqb) [0%Z])))
               next1 next2) = Ok true.
Proof.
  apply (converted_Step_respects_Equal (fun _ => EmptyString)
           (Conc TInt) (Conc TString) (Conc TInt)
           (register (Some Z.eqb) [0%Z]) Z.eqb eq_refl
           Z.eqb_refl Z_eqb_sym_true Z_eqb_trans
           register_step eq_refl register_step_respects
           [0; 1]%Z [1; 0]%Z "read"%string 1%Z
           register_states_deduplicated eq_refl).
Defined.

(** ** The shallow fallback *)

Lemma shallowEqual_conc (t : ctype) (a b : cdenote t) :
  shallowEqual (Conc t) a b =
  if comparable t then ret (ceqb t a b) else raise Uncomparable.
Proof.
  unfold shallowEqual. simpl. rewrite ctype_eq_dec_refl. reflexivity.
Qed.

Lemma ceqb_eq (t : ctype) (a b : cdenote t) :
  comparable t = true -> (ceqb t a b = true <-> a = b).
Proof.
  destruct t; simpl; intros Ht; try discriminate Ht.
  - apply Z.eqb_eq.
  - apply Z.eqb_eq.
  - apply Bool.eqb_true_iff.
  - apply String.eqb_eq.
Qed.

(** X20.  On states of type int, int64, bool or string [shallowEqual]
    never panics and answers true exactly on equal values; on states of a
    slice type it panics on every pair of values. *)
Theorem shallowEqual_concrete (t : ctype) (a b : cdenote t) :
  (t = TInt \/ t = TInt64 \/ t = TBool \/ t = TString ->
   exists r, outcome (shallowEqual (Conc t) a b) = Ok r /\ (r = true <-> a = b)) /\
  (forall elem,
      t = TSlice elem ->
      outcome (shallowEqual (Conc t) a b) = Panic Uncomparable).
Proof.
  rewrite shallowEqual_conc. split.
  - intros Ht.
    assert (Hc : comparable t = true)
      by (destruct Ht as [-> | [-> | [-> | ->]]]; reflexivity).
    rewrite Hc. exists (ceqb t a b). split; [reflexivity | apply ceqb_eq, Hc].
  - intros elem ->. reflexivity.
Qed.

Lemma shallowEqual_concrete_witness :
  (exists r, outcome (shallowEqual (Conc TString) "a"%string "a"%string) = Ok r /\
             (r = true <-> "a"%string = "a"%string)) /\
  outcome (shallowEqual (Conc (TSlice TInt)) [1%Z] [1%Z]) = Panic Uncomparable.
Proof.
  split.
  - apply (proj1 (shallowEqual_concrete TString "a"%string "a"%string)).
    right. right. right. reflexivity.
  - apply (proj2 (shallowEqual_concrete (TSlice TInt) [1%Z] [1%Z]) TInt eq_refl).
Defined.

Lemma merge_second_panics (S : Type) (eq : option (S -> S -> M bool))
    (x y : S) (rest : list S) (p : panic) :
  outcome (call2 eq y x) = Panic p ->
  outcome (merge (x :: y :: rest) eq) = Panic p.
Proof.
  intros Hp. unfold merge. rewrite merge_from_cons.
  change (outcome (find_equal eq x [])) with (@Ok bool false). cbv iota.
  rewrite merge_from_cons. change ([] ++ [x]) with [x].
  rewrite find_equal_cons, Hp. reflexivity.
Qed.

Section UncomparableStates.

Variable Sprintf_v : any -> string.
Variable S : ctype.
Variables I O : gotype.
Variable nm : NondeterministicModel.t (denote (Conc S)) (denote I) (denote O).

Local Abbreviation converted :=
  (NondeterministicModel.ToModel Sprintf_v (Conc S) I O nm).

(** X21.  Without [nm.Equal] and with an uncomparable state type, the
    converted [Step] panics as soon as the steps of the state-set give two
    or more states together: the fallback cannot compare the second with the
    first.  With at most one it returns it. *)
Theorem converted_Step_uncomparable step state input output :
  NondeterministicModel.Equal nm = None ->
  NondeterministicModel.Step nm = Some step ->
  comparable S = false ->
  outcome (call3 (Model.Step converted) state input output) =
  match flat_map (fun s => step s input output) state with
  | [] => Ok (false, [])
  | [x] => Ok (true, [x])
  | _ :: _ :: _ => Panic Uncomparable
  end.
Proof.
  intros HEqual Hstep HS.
  rewrite converted_Step, outcome_bind.
  rewrite (collect_outcome (Conc S) I O nm step state input output [] Hstep).
  rewrite app_nil_l, outcome_bind.
  rewrite (equal_without_Equal (Conc S) I O nm HEqual).
  destruct (flat_map (fun s => step s input output) state) as [|x [|y rest]];
    [reflexivity | reflexivity |].
  rewrite (merge_second_panics _ (Some (shallowEqual (Conc S))) x y rest
             Uncomparable); [reflexivity |].
  simpl call2. rewrite shallowEqual_conc, HS. reflexivity.
Qed.

End UncomparableStates.

Lemma converted_Step_uncomparable_witness :
  outcome (call3 (Model.Step
                    (NondeterministicModel.ToModel (fun _ => EmptyString)
                       (Conc (TSlice TInt)) (Conc TInt) (Conc TInt)
                       (NondeterministicModel.mk None None None
                          (Some (fun (s : list Z) (i o : Z) => [i :: s; s]))
                          None None None)))
             [[]] 1%Z 0%Z)
  = Panic Uncomparable.
Proof.
  apply (converted_Step_uncomparable (fun _ => EmptyString)
           (TSlice TInt) (Conc TInt) (Conc TInt)
           (NondeterministicModel.mk None None None
              (Some (fun (s : list Z) (i o : Z) => [i :: s; s]))
              None None None)
           (fun (s : list Z) (i o : Z) => [i :: s; s])
           [[]] 1%Z 0%Z eq_refl eq_refl eq_refl).
Defined.

(** ** The converted [Step] and the deduplicated union *)

Section MergeAgainstSpecification.

Variable S : Type.
Variable eq : option (S -> S -> M bool).
Variable f : S -> S -> bool.
Hypothesis eq_f : computes eq f.



End MergeAgainstSpecification.

Section ConvertedStepUnion.

Variable Sprintf_v : any -> string.
Variables S I O : gotype.
Variable nm : NondeterministicModel.t (denote S) (denote I) (denote O).

Local Abbreviation converted := (NondeterministicModel.ToModel Sprintf_v S I O nm).
Local Abbreviation equal := (NondeterministicModel.equal S I O nm).


(** The fallback on states of type int, int64, bool or string returns a
    boolean on all states. *)
Lemma equal_fallback_computes (t : ctype)
    (nm' : NondeterministicModel.t (denote (Conc t)) (denote I) (denote O)) :
  NondeterministicModel.Equal nm' = None ->
  comparable t = true ->
  computes (NondeterministicModel.equal (Conc t) I O nm') (ceqb t).
Proof.
  intros HEqual Ht x y.
  rewrite (equal_without_Equal (Conc t) I O nm' HEqual).
  simpl call2. rewrite shallowEqual_conc, Ht. reflexivity.
Qed.

End ConvertedStepUnion.


